(** * The smart-HTTP bridge of gitrpc: a shallow embedding and its properties

    The development follows [internal/gitrpc/http_service.go]: the packet-line
    encoder [packetWrite], the path resolver [getFullPathForRepo], the two
    operations [InfoRefs] and [ServicePack] and the shared [serviceRPC].

    Go strings are byte sequences; they are modelled by [string] (a list of
    8-bit [ascii]).  A [[]byte] is a [list byte].  The functions of the Go
    standard library that the code calls ([strconv.FormatInt],
    [strings.Repeat], [regexp.MatchString], [filepath.Join]) are modelled
    after their documented behaviour on a Unix host. *)

From Stdlib Require Import ZArith NArith List String Ascii Bool Lia.
From Stdlib.Strings Require Import Byte.
From Equations Require Import Equations.
Import ListNotations.
Open Scope string_scope.

Set Implicit Arguments.

Definition bytes := list byte.

(** [[]byte(s)] *)
Definition bytes_of (s : string) : bytes := list_byte_of_string s.

(* ================================================================= *)
(** ** Part I.  Definitions *)

(* ----------------------------------------------------------------- *)
(** *** Go library: strconv, strings *)

(** [const digits] of package strconv. *)
Definition digits : string := "0123456789abcdefghijklmnopqrstuvwxyz".

Definition digit_at (d : N) : ascii :=
  match String.get (N.to_nat d) digits with
  | Some c => c
  | None => "0"%char
  end.

Definition inspect {A} (a : A) : {b : A | a = b} := exist _ a eq_refl.

(** The loop of [formatBits] for base 16 (shift 4, mask 15): the digits of
    [u] are produced from the least significant one and written in front of
    what is already there. *)
Equations? formatBits16 (u : N) (acc : string) : string by wf (N.to_nat u) lt :=
  formatBits16 u acc with inspect (N.ltb u 16) := {
    | exist _ true _ => String (digit_at u) acc
    | exist _ false Hge =>
        formatBits16 (N.shiftr u 4) (String (digit_at (N.land u 15)) acc) }.
Proof.
  apply N.ltb_ge in Hge.
  change (N.to_nat (N.shiftr u 4) < N.to_nat u).
  rewrite N.shiftr_div_pow2. change (2 ^ 4)%N with 16%N.
  assert (u / 16 < u)%N by (apply N.div_lt; lia). lia.
Qed.

(** [strconv.FormatInt(i, 16)]: a minus sign for a negative [i], then the
    digits of its magnitude. *)
Definition FormatInt16 (i : Z) : string :=
  if (i <? 0)%Z then String "-" (formatBits16 (Z.to_N (- i)) "")
  else formatBits16 (Z.to_N i) "".

(** [strings.Repeat(s, count)] for a count that is not negative. *)
Fixpoint Repeat (s : string) (count : nat) : string :=
  match count with
  | O => ""
  | S k => s ++ Repeat s k
  end.

(** Conversion to [int64]: two's complement wrap-around on 64 bits. *)
Definition int64 (z : Z) : Z := ((z + 2 ^ 63) mod 2 ^ 64 - 2 ^ 63)%Z.

(** [len(s)] as an integer. *)
Definition len (s : string) : Z := Z.of_nat (String.length s).

(* ----------------------------------------------------------------- *)
(** *** Packet-line encoder *)

(** [packetWrite]: the length of the line plus four, in hexadecimal, padded
    with zeros on the left up to a multiple of four characters, then the
    line. *)
Definition packetWrite (str : string) : bytes :=
  let s := FormatInt16 (int64 (len str + 4)) in
  let s := if negb (len s mod 4 =? 0)%Z
           then Repeat "0" (Z.to_nat (4 - len s mod 4)) ++ s
           else s in
  bytes_of (s ++ str).

(** What the specification asks of a packet-line header for a length [n]:
    four characters, all of them lowercase hexadecimal digits, whose value
    is [n]. *)
Definition is_lower_hex (c : ascii) : bool :=
  let n := N_of_ascii c in
  ((48 <=? n) && (n <=? 57) || (97 <=? n) && (n <=? 102))%N.

Definition hex_digit_value (c : ascii) : N :=
  let n := N_of_ascii c in
  if (n <=? 57)%N then n - 48 else n - 87.

Fixpoint string_forallb (p : ascii -> bool) (s : string) : bool :=
  match s with
  | EmptyString => true
  | String c s' => p c && string_forallb p s'
  end.

Fixpoint hex_value_from (a : N) (s : string) : N :=
  match s with
  | EmptyString => a
  | String c s' => hex_value_from (16 * a + hex_digit_value c) s'
  end.

Definition hex_value (s : string) : N := hex_value_from 0 s.

Record pkt_header (hdr : string) (n : Z) : Prop := {
  hdr_width : String.length hdr = 4;
  hdr_lower_hex : string_forallb is_lower_hex hdr = true;
  hdr_value : Z.of_N (hex_value hdr) = n
}.

(** The encoder's contract in the words of the specification. *)
Definition encode_spec (str : string) : Prop :=
  exists hdr, pkt_header hdr (len str + 4) /\
              packetWrite str = (bytes_of hdr ++ bytes_of str)%list.

(* ----------------------------------------------------------------- *)
(** *** Go library: regexp *)

(** Regular expressions over bytes.  The classes of the pattern in the
    source are ASCII only, so matching bytes agrees with matching runes: a
    byte above 127 belongs to no class and is none of the literals. *)
Inductive regex : Type :=
| ReNone : regex
| ReEps : regex
| ReClass : (ascii -> bool) -> regex
| ReCat : regex -> regex -> regex
| ReAlt : regex -> regex -> regex
| ReStar : regex -> regex.

Definition ReChar (c : ascii) : regex := ReClass (Ascii.eqb c).
Definition RePlus (r : regex) : regex := ReCat r (ReStar r).

Fixpoint nullable (r : regex) : bool :=
  match r with
  | ReNone => false
  | ReEps => true
  | ReClass _ => false
  | ReCat r1 r2 => nullable r1 && nullable r2
  | ReAlt r1 r2 => nullable r1 || nullable r2
  | ReStar _ => true
  end.

Fixpoint deriv (c : ascii) (r : regex) : regex :=
  match r with
  | ReNone => ReNone
  | ReEps => ReNone
  | ReClass p => if p c then ReEps else ReNone
  | ReCat r1 r2 =>
      if nullable r1 then ReAlt (ReCat (deriv c r1) r2) (deriv c r2)
      else ReCat (deriv c r1) r2
  | ReAlt r1 r2 => ReAlt (deriv c r1) (deriv c r2)
  | ReStar r1 => ReCat (deriv c r1) (ReStar r1)
  end.

(** [MatchString] for a pattern written between [^] and [$] (no flags, so
    [$] is the end of the text): the whole string has to match. *)
Fixpoint MatchString (r : regex) (s : string) : bool :=
  match s with
  | EmptyString => nullable r
  | String c s' => MatchString (deriv c r) s'
  end.

(** The class [[0-9a-zA-Z]]. *)
Definition alnum (c : ascii) : bool :=
  let n := N_of_ascii c in
  ((48 <=? n) && (n <=? 57) || (97 <=? n) && (n <=? 122)
   || (65 <=? n) && (n <=? 90))%N.

(** [[0-9a-zA-Z]+] *)
Definition word_re : regex := RePlus (ReClass alnum).

(** [[0-9a-zA-Z]+=[0-9a-zA-Z]+] *)
Definition pair_re : regex := ReCat word_re (ReCat (ReChar "=") word_re).

(** [^[0-9a-zA-Z]+=[0-9a-zA-Z]+(:[0-9a-zA-Z]+=[0-9a-zA-Z]+)*$] *)
Definition safeGitProtocolHeader : regex :=
  ReCat pair_re (ReStar (ReCat (ReChar ":") pair_re)).

(** The language of a regular expression, as a relation. *)
Inductive re_lang : regex -> string -> Prop :=
| lang_eps : re_lang ReEps ""
| lang_class p c : p c = true -> re_lang (ReClass p) (String c "")
| lang_cat r1 r2 s1 s2 :
    re_lang r1 s1 -> re_lang r2 s2 -> re_lang (ReCat r1 r2) (s1 ++ s2)
| lang_alt_l r1 r2 s : re_lang r1 s -> re_lang (ReAlt r1 r2) s
| lang_alt_r r1 r2 s : re_lang r2 s -> re_lang (ReAlt r1 r2) s
| lang_star_nil r : re_lang (ReStar r) ""
| lang_star_cons r s1 s2 :
    re_lang r s1 -> re_lang (ReStar r) s2 -> re_lang (ReStar r) (s1 ++ s2).

(** The allow-list grammar in the words of the specification:
    [word=word(:word=word)*] with words over [[0-9a-zA-Z]+]. *)
Definition is_word (w : string) : Prop :=
  w <> "" /\ string_forallb alnum w = true.

Inductive protocol_pairs : string -> Prop :=
| pairs_one k v :
    is_word k -> is_word v -> protocol_pairs (k ++ "=" ++ v)
| pairs_more k v rest :
    is_word k -> is_word v -> protocol_pairs rest ->
    protocol_pairs (k ++ "=" ++ v ++ ":" ++ rest).

(* ----------------------------------------------------------------- *)
(** *** Go library: path/filepath on Unix *)

(** [strings.Split(s, sep)] for a one-byte separator. *)
Fixpoint Split (sep : ascii) (s : string) : list string :=
  match s with
  | EmptyString => [""]
  | String c s' =>
      if Ascii.eqb c sep then "" :: Split sep s'
      else match Split sep s' with
           | [] => [String c ""]
           | w :: ws => String c w :: ws
           end
  end.

(** [strings.Join(elems, sep)] *)
Fixpoint StringsJoin (elems : list string) (sep : string) : string :=
  match elems with
  | [] => ""
  | [e] => e
  | e :: rest => e ++ sep ++ StringsJoin rest sep
  end.

(** One element of the path seen by [Clean]; [out] holds the elements kept
    so far, the last one first. *)
Definition clean_step (rooted : bool) (out : list string) (e : string)
  : list string :=
  if String.eqb e "" || String.eqb e "." then out
  else if String.eqb e ".." then
    match out with
    | top :: rest => if String.eqb top ".." then e :: out else rest
    | [] => if rooted then [] else [e]
    end
  else e :: out.

(** [filepath.Clean]: separators are collapsed, [.] elements dropped, an
    inner [..] removes the element before it, a [..] at the root is dropped;
    the empty result is [.]. *)
Definition Clean (path : string) : string :=
  let rooted := String.prefix "/" path in
  let out := rev (fold_left (clean_step rooted) (Split "/" path) []) in
  let body := StringsJoin out "/" in
  if rooted then "/" ++ body
  else if String.eqb body "" then "." else body.

(** [filepath.Join]: the first element that is not empty and all after it
    are joined with the separator and cleaned. *)
Fixpoint Join (elem : list string) : string :=
  match elem with
  | [] => ""
  | e :: rest =>
      if String.eqb e "" then Join rest
      else Clean (StringsJoin elem "/")
  end.

(** [path] is [root] or lies below it. *)
Definition within (root path : string) : bool :=
  String.eqb path root || String.prefix (root ++ "/") path.

(* ----------------------------------------------------------------- *)
(** *** Errors, requests, subprocesses and the stream *)

(** The status codes the file uses. *)
Inductive Code : Type := Internal | InvalidArgument.

Definition code_name (c : Code) : string :=
  match c with
  | Internal => "Internal"
  | InvalidArgument => "InvalidArgument"
  end.

(** A Go [error]: one made by [status.Errorf], or any other error, known by
    its message. *)
Inductive error : Type :=
| StatusError (c : Code) (msg : string)
| PlainError (msg : string).

(** [err.Error()] *)
Definition Error (e : error) : string :=
  match e with
  | StatusError c msg => "rpc error: code = " ++ code_name c ++ " desc = " ++ msg
  | PlainError msg => msg
  end.

Record InfoRefsRequest : Type := {
  ir_RepoUid : string;
  ir_Service : string;
  ir_GitProtocol : string
}.

(** [Data] is a slice: [None] is the nil slice, [Some []] a slice that is
    empty and not nil. *)
Record ServicePackRequest : Type := {
  RepoUid : string;
  Service : string;
  GitProtocol : string;
  PrincipalId : string;
  Data : option bytes
}.

(** What [stream.Recv()] returns. *)
Inductive Received : Type :=
| RecvMsg (m : ServicePackRequest)
| RecvErr (e : error).

(** The inbound adapter handed to the subprocess as standard input: its
    [n]-th read gives the payload of the next message and the error of the
    transport, if any. *)
Definition Reader := nat -> bytes * option error.

Record RunOpts : Type := {
  Env : list string;
  Dir : string;
  Stdin : option Reader;
  UseContextTimeout : bool
}.

(** A git command: the arguments after the executable and the description
    set on it. *)
Record Command : Type := {
  cmd_args : list string;
  cmd_desc : option string
}.

(** What a run of the git executable does: the bytes it writes to standard
    output and to standard error, and the error [Run] returns. *)
Record Outcome : Type := {
  out_stdout : bytes;
  out_stderr : string;
  out_err : option error
}.

(** What a call does that can be seen from outside, in order. *)
Inductive Event : Type :=
| EvRecv (r : Received)
| EvRun (c : Command) (o : RunOpts)
| EvSend (p : bytes) (result : option error)
| EvLogErr (msg : string).

(** The state threaded through a call: the events so far and how many
    messages were received from and sent on the stream. *)
Record State : Type := {
  trace : list Event;
  recvs : nat;
  sends : nat
}.

Definition init : State := {| trace := []; recvs := 0; sends := 0 |}.

(** A step either goes on with a value or leaves the function with an
    error ([return err]). *)
Inductive Res (A : Type) : Type :=
| Val (a : A)
| Return (e : error).
Arguments Return {A} e.

Definition M (A : Type) : Type := State -> Res A * State.

Definition ret {A} (a : A) : M A := fun st => (Val a, st).
Definition return_err {A} (e : error) : M A := fun st => (Return e, st).
Definition bind {A B} (m : M A) (k : A -> M B) : M B :=
  fun st => match m st with
            | (Val a, st') => k a st'
            | (Return e, st') => (Return e, st')
            end.

Declare Scope go_scope.
Delimit Scope go_scope with go.
Notation "x <- m ;; k" := (bind m (fun x => k))
  (at level 61, m at next level, right associativity) : go_scope.
Notation "m ;;; k" := (bind m (fun _ => k))
  (at level 61, right associativity) : go_scope.
Open Scope go_scope.

Definition emit (ev : Event) : M unit :=
  fun st => (Val tt, {| trace := trace st ++ [ev];
                        recvs := recvs st; sends := sends st |}).

Definition is_run (ev : Event) : bool :=
  match ev with EvRun _ _ => true | _ => false end.

(** The payloads of the sends that succeeded. *)
Definition sent_bytes (ev : Event) : bytes :=
  match ev with EvSend p None => p | _ => [] end.

Definition is_send (ev : Event) : bool :=
  match ev with EvSend _ _ => true | _ => false end.

Definition is_log (ev : Event) : bool :=
  match ev with EvLogErr _ => true | _ => false end.

(** The value of a variable in an environment given as [KEY=VALUE] strings;
    when a key occurs twice, the last entry counts (os/exec). *)
Fixpoint entry_value (key entry : string) : option string :=
  match key, entry with
  | EmptyString, String b v => if Ascii.eqb b "=" then Some v else None
  | String a k, String b e => if Ascii.eqb a b then entry_value k e else None
  | _, _ => None
  end.

Fixpoint getenv (key : string) (env : list string) : option string :=
  match env with
  | [] => None
  | e :: rest =>
      match getenv key rest with
      | Some v => Some v
      | None => entry_value key e
      end
  end.

(* ----------------------------------------------------------------- *)
(** *** The service *)

Definition receivePack : string := "receive-pack".

Record smartHTTPService : Type := { reposRoot : string }.

(** [status.Errorf(code, prefix + "%v", err)] *)
Definition Errorf (c : Code) (prefix : string) (err : error) : error :=
  StatusError c (prefix ++ Error err).

(** [if err != nil { return f(err) }] *)
Definition on_err (e : option error) (f : error -> error) : M unit :=
  match e with
  | Some err => return_err (f err)
  | None => ret tt
  end.

Section Service.

(** Constants of the package that are declared in other files. *)
Variable gitRepoSuffix : string.
Variable EnvRepoUID : string.
Variable EnvPusherID : string.
Variable GitExecutable : string.

(** The surroundings of a call: the environment of the host process, the
    behaviour of the git executable, and the two directions of the
    stream. *)
Variable os_Environ : list string.
Variable git_run : Command -> RunOpts -> Outcome.
Variable stream_recv : nat -> Received.
Variable stream_send : nat -> bytes -> option error.

Definition getFullPathForRepo (s : smartHTTPService) (uid : string) : string :=
  Join [reposRoot s; uid ++ "." ++ gitRepoSuffix].

(** [stream.Recv()] *)
Definition Recv : M Received :=
  fun st =>
    let r := stream_recv (recvs st) in
    (Val r, {| trace := trace st ++ [EvRecv r];
               recvs := S (recvs st); sends := sends st |}).

(** [stream.Send(&Response{Data: p})] *)
Definition Send (p : bytes) : M (option error) :=
  fun st =>
    let r := stream_send (sends st) p in
    (Val r, {| trace := trace st ++ [EvSend p r];
               recvs := recvs st; sends := S (sends st) |}).

(** [cmd.Run(opts)] *)
Definition Run (c : Command) (o : RunOpts) : M Outcome :=
  emit (EvRun c o) ;;; ret (git_run c o).

(** Modelled from the spec: the outbound adapter made by [NewWriter],
    whose code is in another file.  A write forwards the bytes as one send
    on the transport; a failure of the transport is the failure of the
    write. *)
Definition Write (p : bytes) : M (Z * option error) :=
  e <- Send p ;;
  match e with
  | Some err => ret (0%Z, Some err)
  | None => ret (Z.of_nat (List.length p), None)
  end.

(** Modelled from the spec: the inbound adapter made by [NewReader] over
    the messages that follow the first one; a read returns the payload of
    the next message and the error of the transport as it is. *)
Definition NewReader : Reader :=
  fun n =>
    match stream_recv (S n) with
    | RecvMsg m => (match Data m with Some d => d | None => [] end, None)
    | RecvErr e => ([], Some e)
    end.

(** [io.Copy(w, buf)] from a [bytes.Buffer]: the buffer writes all it
    holds in one write, and nothing when it is empty. *)
Definition io_Copy (buf : bytes) : M (Z * option error) :=
  match buf with
  | [] => ret (0%Z, None)
  | _ => Write buf
  end.

(** The value of [environ] in [InfoRefs] when the command is run. *)
Definition InfoRefs_environ (r : InfoRefsRequest) : list string :=
  let environ := [] in
  let environ := (os_Environ ++ environ)%list in
  if negb (ir_GitProtocol r =? "")
  then (environ ++ [("GIT_PROTOCOL=" ++ ir_GitProtocol r)%string])%list
  else environ.

(** The command [InfoRefs] makes and the options it runs it with. *)
Definition InfoRefs_cmd (r : InfoRefsRequest) : Command :=
  {| cmd_args := [ir_Service r; "--stateless-rpc"; "--advertise-refs"; "."];
     cmd_desc := None |}.

Definition InfoRefs_opts (s : smartHTTPService) (r : InfoRefsRequest)
  : RunOpts :=
  {| Env := InfoRefs_environ r;
     Dir := getFullPathForRepo s (ir_RepoUid r);
     Stdin := None;
     UseContextTimeout := false |}.

Definition InfoRefs (s : smartHTTPService) (r : InfoRefsRequest) : M unit :=
  out <- Run (InfoRefs_cmd r) (InfoRefs_opts s r) ;;
  on_err (out_err out) (Errorf Internal "InfoRefsUploadPack: cmd: ") ;;;
  w <- Write (packetWrite ("# service=git-" ++ ir_Service r
                           ++ String "010" "")) ;;
  on_err (snd w) (Errorf Internal "InfoRefsUploadPack: pktLine: ") ;;;
  w <- Write (bytes_of "0000") ;;
  on_err (snd w) (Errorf Internal "InfoRefsUploadPack: flush: ") ;;;
  c <- io_Copy (out_stdout out) ;;
  on_err (snd c) (Errorf Internal "InfoRefsUploadPack: ") ;;;
  ret tt.

(** The value of [environ] in [serviceRPC] when the command is run; it is
    appended to the environment of the host. *)
Definition serviceRPC_environ (req : ServicePackRequest) : list string :=
  let protocol := GitProtocol req in
  let service := Service req in
  let principalID := PrincipalId req in
  let repoUID := RepoUid req in
  let environ := [] in
  let environ :=
    if (service =? receivePack) && negb (principalID =? "")
    then [EnvRepoUID ++ "=" ++ repoUID; EnvPusherID ++ "=" ++ principalID]
    else environ in
  let environ :=
    (environ ++ [("SSH_ORIGINAL_COMMAND=" ++ service)%string])%list in
  if negb (protocol =? "") && MatchString safeGitProtocolHeader protocol
  then (environ ++ [("GIT_PROTOCOL=" ++ protocol)%string])%list
  else environ.

(** The command [serviceRPC] makes and the options it runs it with. *)
Definition serviceRPC_cmd (req : ServicePackRequest) (dir : string)
  : Command :=
  let service := Service req in
  {| cmd_args := [service; "--stateless-rpc"; dir];
     cmd_desc := Some (GitExecutable ++ " " ++ service ++ " "
                       ++ "--stateless-rpc" ++ " [repo_path: " ++ dir ++ "]") |}.

Definition serviceRPC_opts (stdin : Reader) (req : ServicePackRequest)
           (dir : string) : RunOpts :=
  {| Env := (os_Environ ++ serviceRPC_environ req)%list;
     Dir := dir;
     Stdin := Some stdin;
     UseContextTimeout := true |}.

(** The line logged for a failed run. *)
Definition serviceRPC_log (req : ServicePackRequest) (dir : string)
           (err : error) (stderr : string) : string :=
  "Fail to serve RPC(" ++ Service req ++ ") in " ++ dir ++ ": "
  ++ Error err ++ " - " ++ stderr.

Definition serviceRPC (stdin : Reader) (req : ServicePackRequest)
           (dir : string) : M unit :=
  out <- Run (serviceRPC_cmd req dir) (serviceRPC_opts stdin req dir) ;;
  match out_err out with
  | Some err =>
      (if negb (Error err =? "signal: killed")
       then emit (EvLogErr (serviceRPC_log req dir err (out_stderr out)))
       else ret tt) ;;;
      return_err err
  | None => ret tt
  end.

Definition ServicePack (s : smartHTTPService) : M unit :=
  r <- Recv ;;
  match r with
  | RecvErr err => return_err err
  | RecvMsg req =>
      match Data req with
      | Some _ =>
          return_err (StatusError InvalidArgument
                                  "PostUploadPack(): non-empty Data")
      | None =>
          if RepoUid req =? ""
          then return_err (StatusError InvalidArgument
                             "PostUploadPack(): repository UID is missing")
          else
            let repoPath := getFullPathForRepo s (RepoUid req) in
            serviceRPC NewReader req repoPath
      end
  end.

(** A whole call: the error returned ([None] for nil) and the events. *)
Definition call (m : M unit) : option error * list Event :=
  match m init with
  | (Val _, st) => (None, trace st)
  | (Return e, st) => (Some e, trace st)
  end.

End Service.

(* ----------------------------------------------------------------- *)
(** *** Notions used by the properties *)

(** The first message carries payload bytes. *)
Definition carries_payload (req : ServicePackRequest) : Prop :=
  match Data req with
  | Some (_ :: _) => True
  | _ => False
  end.

(** The error is a status error with the given code. *)
Definition has_code (c : Code) (e : option error) : Prop :=
  exists msg, e = Some (StatusError c msg).

(** The environment has the service marker, with the given service as its
    value. *)
Definition has_service_marker (env : list string) (service : string) : Prop :=
  getenv "SSH_ORIGINAL_COMMAND" env = Some service.

(** The environments of the subprocesses of a trace. *)
Definition run_envs (tr : list Event) : list (list string) :=
  flat_map (fun ev => match ev with
                      | EvRun _ o => [Env o]
                      | _ => []
                      end) tr.

(** No subprocess was started. *)
Definition no_subprocess (tr : list Event) : Prop :=
  existsb is_run tr = false.

(** Nothing was sent to the caller, successfully or not. *)
Definition nothing_sent (tr : list Event) : Prop :=
  existsb is_send tr = false.

(** All the bytes that reached the caller, in order. *)
Definition bytes_sent (tr : list Event) : bytes :=
  List.concat (map sent_bytes tr).

(** A name of an environment variable: it has no [=] in it. *)
Definition var_name (k : string) : bool :=
  string_forallb (fun c => negb (Ascii.eqb c "=")) k.

(** What the properties need of the two names that are declared in another
    file: they are names, they differ, and they are not the two names that
    this file writes out. *)
Definition correlation_names (repoVar pusherVar : string) : bool :=
  var_name repoVar && var_name pusherVar
  && negb (repoVar =? pusherVar)
  && negb (repoVar =? "SSH_ORIGINAL_COMMAND")
  && negb (pusherVar =? "SSH_ORIGINAL_COMMAND")
  && negb (repoVar =? "GIT_PROTOCOL")
  && negb (pusherVar =? "GIT_PROTOCOL").

(** The string has no separator in it. *)
Definition no_sep (sep : ascii) (s : string) : bool :=
  string_forallb (fun c => negb (Ascii.eqb c sep)) s.

(** A plain element of a path: not empty, not [.] nor [..], and without
    separator. *)
Definition plain (e : string) : bool :=
  negb (e =? "") && negb (e =? ".") && negb (e =? "..") && no_sep "/" e.

(* ----------------------------------------------------------------- *)
(** *** Sample inputs *)

(** A line of 65532 bytes: its length plus four is 65536, which takes five
    hexadecimal digits. *)
Definition long_line : string := Repeat "a" (N.to_nat 65532).

Definition sample_service : smartHTTPService :=
  {| reposRoot := "/data/repos" |}.

Definition sample_host_env : list string :=
  ["PATH=/usr/bin:/bin"; "HOME=/var/lib/gitness"].

(** A fetch of the references of [r1]. *)
Definition sample_info_refs : InfoRefsRequest :=
  {| ir_RepoUid := "r1"; ir_Service := "upload-pack";
     ir_GitProtocol := "version=2" |}.

(** The same with a protocol string that the pattern refuses. *)
Definition unsafe_info_refs : InfoRefsRequest :=
  {| ir_RepoUid := "r1"; ir_Service := "upload-pack";
     ir_GitProtocol := "version=2 x" |}.

(** The first message of a push by the principal [p1]. *)
Definition sample_push : ServicePackRequest :=
  {| RepoUid := "r1"; Service := "receive-pack"; GitProtocol := "version=2";
     PrincipalId := "p1"; Data := None |}.

(** First messages that are refused. *)
Definition push_with_payload : ServicePackRequest :=
  {| RepoUid := "r1"; Service := "receive-pack"; GitProtocol := "";
     PrincipalId := "p1"; Data := Some (bytes_of "0000") |}.

Definition push_with_empty_payload : ServicePackRequest :=
  {| RepoUid := "r1"; Service := "receive-pack"; GitProtocol := "";
     PrincipalId := "p1"; Data := Some [] |}.

(** Streams that deliver a given first message and then end. *)
Definition stream_of (first : ServicePackRequest) : nat -> Received :=
  fun n => match n with
           | O => RecvMsg first
           | S _ => RecvErr (PlainError "EOF")
           end.

Definition send_ok : nat -> bytes -> option error := fun _ _ => None.

(** The first message of a fetch with the protocol string that the pattern
    refuses. *)
Definition unsafe_fetch : ServicePackRequest :=
  {| RepoUid := "r1"; Service := "upload-pack"; GitProtocol := "version=2 x";
     PrincipalId := ""; Data := None |}.

(** The first message of a fetch, without principal. *)
Definition sample_fetch : ServicePackRequest :=
  {| RepoUid := "r1"; Service := "upload-pack"; GitProtocol := "version=2";
     PrincipalId := ""; Data := None |}.

(** Stand-ins for the constants of the package that other files declare. *)
Definition sample_suffix : string := "git".
Definition sample_repo_var : string := "GITRPC_REPO_UID".
Definition sample_pusher_var : string := "GITRPC_PUSHER_ID".
Definition sample_git : string := "git".

(** Runs of git: one that succeeds, one that exits with an error, one that
    is killed. *)
Definition git_ok : Command -> RunOpts -> Outcome :=
  fun _ _ => {| out_stdout := bytes_of "0000"; out_stderr := "";
                out_err := None |}.

Definition git_fails : Command -> RunOpts -> Outcome :=
  fun _ _ => {| out_stdout := []; out_stderr := "fatal: not a git repository";
                out_err := Some (PlainError "exit status 128") |}.

Definition git_killed : Command -> RunOpts -> Outcome :=
  fun _ _ => {| out_stdout := []; out_stderr := "";
                out_err := Some (PlainError "signal: killed") |}.

(** The command and the options of the sample push. *)
Definition sample_push_cmd : Command :=
  serviceRPC_cmd sample_git sample_push "/data/repos/r1.git".

Definition sample_push_opts : RunOpts :=
  serviceRPC_opts sample_repo_var sample_pusher_var sample_host_env
                  (NewReader (stream_of sample_push)) sample_push
                  "/data/repos/r1.git".

(* ----------------------------------------------------------------- *)
(** *** More notions for the properties *)

(** The characters that a protocol string accepted by the pattern can be
    made of. *)
Definition protocol_char (c : ascii) : bool :=
  alnum c || Ascii.eqb c "=" || Ascii.eqb c ":".

(** A send that the transport refused. *)
Definition send_failed (ev : Event) : bool :=
  match ev with
  | EvSend _ (Some _) => true
  | _ => false
  end.

(** No element of the path is [..]. *)
Definition dotdot_free (path : string) : bool :=
  forallb (fun e => negb (e =? "..")) (Split "/" path).

(** The elements that [Clean] keeps when there is no [..]: those that are
    neither empty nor [.]. *)
Definition kept (e : string) : bool := negb (e =? "") && negb (e =? ".").

(* ----------------------------------------------------------------- *)
(** *** Construction of the service *)

(** What the construction asks of the file system. *)
Inductive FsEvent : Type :=
| FsStat (path : string)
| FsMkdirAll (path : string) (perm : N).

Section Construction.

(** The name of the directory of the repositories under the git root; it is
    declared in another file. *)
Variable repoSubdirName : string.

(** The file system: what [os.Stat] and [os.MkdirAll] answer for a path,
    and [errors.Is(err, os.ErrNotExist)]. *)
Variable os_Stat : string -> option error.
Variable os_MkdirAll : string -> N -> option error.
Variable IsNotExist : error -> bool.

(** The service made, or the error, and the calls to the file system. *)
Definition newHTTPService (gitRoot : string)
  : (option smartHTTPService * option error) * list FsEvent :=
  let reposRoot := Join [gitRoot; repoSubdirName] in
  let err := os_Stat reposRoot in
  if match err with Some e => IsNotExist e | None => false end
  then
    match os_MkdirAll reposRoot 448 (* 0o700 *) with
    | Some err => ((None, Some err),
                   [FsStat reposRoot; FsMkdirAll reposRoot 448])
    | None => ((Some {| reposRoot := reposRoot |}, None),
               [FsStat reposRoot; FsMkdirAll reposRoot 448])
    end
  else ((Some {| reposRoot := reposRoot |}, None), [FsStat reposRoot]).

End Construction.

(** A file system where nothing exists and every directory can be made. *)
Definition stat_missing : string -> option error :=
  fun _ => Some (PlainError "no such file or directory").

Definition mkdir_ok : string -> N -> option error := fun _ _ => None.

Definition is_missing (e : error) : bool :=
  Error e =? "no such file or directory".

(* ----------------------------------------------------------------- *)
(** *** The pre-receive hook of the githook controller *)

Module GithookController.

(** One update of a reference in a push; of the type, which another file
    declares, the code reads the name of the reference and the new value. *)
Record ReferenceUpdate : Type := {
  Ref : string;
  New : string
}.

Record PreReceiveInput : Type := { RefUpdates : list ReferenceUpdate }.

(** Of a repository the hook reads the default branch. *)
Record Repository : Type := { DefaultBranch : string }.

(** The answer of a hook: [Error] is a pointer to a string, nil or set. *)
Record Output : Type := { Error : option string }.

Section Controller.

(** Constants that other files declare: the prefix of the names of branch
    references, the SHA that stands for no object, and the message of
    [usererror.ErrDefaultBranchCantBeDeleted]. *)
Variable gitReferenceNamePrefixBranch : string.
Variable NilSHA : string.
Variable ErrDefaultBranchCantBeDeleted : string.

(** The session and the check of the access to a repository for editing,
    which another file implements: it gives the repository or an error. *)
Variable Session : Type.
Variable getRepoCheckAccess : Session -> Z -> Repository + error.

(** The loop over the updates: the first that deletes the reference
    decides. *)
Fixpoint first_deletion (ref : string) (updates : list ReferenceUpdate)
  : option Output :=
  match updates with
  | [] => None
  | refUpdate :: rest =>
      if (New refUpdate =? NilSHA) && (Ref refUpdate =? ref)
      then Some {| Error := Some ErrDefaultBranchCantBeDeleted |}
      else first_deletion ref rest
  end.

Definition blockDefaultBranchDeletion (repo : Repository)
           (input : PreReceiveInput) : option Output :=
  let repoDefaultBranchRef :=
    gitReferenceNamePrefixBranch ++ DefaultBranch repo in
  first_deletion repoDefaultBranchRef (RefUpdates input).

(** [PreReceive]: the input is a pointer, [None] when nil; the result is
    the output, or nil, and the error. *)
Definition PreReceive (session : Session) (repoID principalID : Z)
           (input : option PreReceiveInput) : option Output * option error :=
  match input with
  | None => (None, Some (PlainError "input is nil"))
  | Some input =>
      match getRepoCheckAccess session repoID with
      | inr err => (None, Some err)
      | inl repo =>
          match blockDefaultBranchDeletion repo input with
          | Some branchOutput => (Some branchOutput, None)
          | None => (Some {| Error := None |}, None)
          end
      end
  end.

End Controller.

(** The update deletes the reference: it sets it to the nil SHA. *)
Definition deletes (NilSHA ref : string) (u : ReferenceUpdate) : Prop :=
  New u = NilSHA /\ Ref u = ref.

End GithookController.

(* ----------------------------------------------------------------- *)
(** *** Go library: strconv, parsing *)

(** The two errors of a [*strconv.NumError]. *)
Inductive NumError : Type := ErrSyntax | ErrRange.

Definition is_digit (c : ascii) : bool :=
  let n := N_of_ascii c in ((48 <=? n) && (n <=? 57))%N.

Definition maxUint64 : N := 2 ^ 64 - 1.

(** The loop of [ParseUint] for base 10 and 64 bits: a byte that is not a
    digit is a syntax error; a value that leaves 64 bits is a range error,
    reported at once with the largest value. *)
Fixpoint parseUint_digits (s : string) (n : N) : N * option NumError :=
  match s with
  | EmptyString => (n, None)
  | String c s' =>
      if is_digit c then
        let d := (N_of_ascii c - 48)%N in
        if (maxUint64 / 10 + 1 <=? n)%N then (maxUint64, Some ErrRange)
        else
          let n1 := (n * 10 + d)%N in
          if (maxUint64 <? n1)%N then (maxUint64, Some ErrRange)
          else parseUint_digits s' n1
      else (0%N, Some ErrSyntax)
  end.

(** [strconv.ParseUint(s, 10, 64)] *)
Definition ParseUint (s : string) : N * option NumError :=
  match s with
  | EmptyString => (0%N, Some ErrSyntax)
  | _ => parseUint_digits s 0
  end.

(** [strconv.ParseInt(s, 10, 64)]: a sign, then an unsigned number; out of
    range the nearest bound comes back with the range error. *)
Definition ParseInt (s : string) : Z * option NumError :=
  match s with
  | EmptyString => (0%Z, Some ErrSyntax)
  | String c rest =>
      let neg := Ascii.eqb c "-" in
      let s' := if Ascii.eqb c "+" || Ascii.eqb c "-" then rest else s in
      match ParseUint s' with
      | (_, Some ErrSyntax) => (0%Z, Some ErrSyntax)
      | (un, _) =>
          let cutoff := (2 ^ 63)%N in
          if negb neg && (cutoff <=? un)%N
          then (Z.of_N cutoff - 1, Some ErrRange)%Z
          else if neg && (cutoff <? un)%N
          then (- Z.of_N cutoff, Some ErrRange)%Z
          else ((if neg then - Z.of_N un else Z.of_N un)%Z, None)
      end
  end.

(** [strconv.Atoi(s)] where [int] has 64 bits: the same as
    [ParseInt(s, 10, 0)]. *)
Definition Atoi (s : string) : Z * option NumError := ParseInt s.

(** [strconv.ParseBool(s)] *)
Definition ParseBool (s : string) : bool * option NumError :=
  if (s =? "1") || (s =? "t") || (s =? "T") || (s =? "TRUE") || (s =? "true")
     || (s =? "True")
  then (true, None)
  else if (s =? "0") || (s =? "f") || (s =? "F") || (s =? "FALSE")
          || (s =? "false") || (s =? "False")
  then (false, None)
  else (false, Some ErrSyntax).

(** The value of a string of decimal digits. *)
Fixpoint decimal_from (a : N) (s : string) : N :=
  match s with
  | EmptyString => a
  | String c s' => decimal_from (a * 10 + (N_of_ascii c - 48)) s'
  end.

Definition decimal_value (s : string) : N := decimal_from 0 s.

(* ----------------------------------------------------------------- *)
(** *** The request helpers of the API *)

Module Request.

(** What the helpers read of an [*http.Request]: the parameters of the
    route ([chi.URLParam], empty when there is none), the values of the
    query ([r.URL.Query()], a map from a key to its values) and the values
    of the form ([r.FormValue], empty when there is none). *)
Record Request : Type := {
  URLParam : string -> string;
  Query : string -> option (list string);
  FormValue : string -> string
}.

(** [query.Has(key)] and [query.Get(key)] of [url.Values]. *)
Definition Has (r : Request) (key : string) : bool :=
  match Query r key with Some _ => true | None => false end.

Definition Get (r : Request) (key : string) : string :=
  match Query r key with
  | Some (v :: _) => v
  | _ => ""
  end.

Definition PathParamRemainder : string := "*".
Definition QueryParamSort : string := "sort".
Definition QueryParamOrder : string := "order".
Definition QueryParamQuery : string := "query".
Definition QueryParamPage : string := "page".

Section Helpers.

(** [usererror.BadRequestf], which another file declares, applied to the
    formatted message. *)
Variable BadRequestf : string -> error.

Definition PathParamOrError (r : Request) (paramName : string)
  : string * option error :=
  let value := URLParam r paramName in
  if value =? ""
  then ("", Some (BadRequestf ("Parameter '" ++ paramName
                               ++ "' not found in request path.")))
  else (value, None).

Definition PathParamOrEmpty (r : Request) (paramName : string) : string :=
  URLParam r paramName.

Definition QueryParam (r : Request) (paramName : string) : string * bool :=
  if negb (Has r paramName) then ("", false)
  else (Get r paramName, true).

Definition QueryParamOrDefault (r : Request) (paramName deflt : string)
  : string :=
  let (val, ok) := QueryParam r paramName in
  if negb ok then deflt else val.

Definition QueryParamOrError (r : Request) (paramName : string)
  : string * option error :=
  let (val, ok) := QueryParam r paramName in
  if negb ok
  then ("", Some (BadRequestf ("Parameter '" ++ paramName
                               ++ "' not found in query.")))
  else (val, None).

(** [if err != nil || valueInt <= 0 { return 0, BadRequestf(...) }] *)
Definition positive_or_error (paramName : string)
           (parsed : Z * option NumError) : Z * option error :=
  let (valueInt, err) := parsed in
  if match err with Some _ => true | None => false end || (valueInt <=? 0)%Z
  then (0%Z, Some (BadRequestf ("Parameter '" ++ paramName
                                ++ "' must be a positive integer.")))
  else (valueInt, None).

Definition QueryParamAsPositiveInt64OrDefault (r : Request)
           (paramName : string) (deflt : Z) : Z * option error :=
  let (value, ok) := QueryParam r paramName in
  if negb ok then (deflt, None)
  else positive_or_error paramName (ParseInt value).

Definition QueryParamAsPositiveInt64 (r : Request) (paramName : string)
  : Z * option error :=
  match QueryParamOrError r paramName with
  | (_, Some err) => (0%Z, Some err)
  | (value, None) => positive_or_error paramName (ParseInt value)
  end.

Definition PathParamAsPositiveInt64 (r : Request) (paramName : string)
  : Z * option error :=
  match PathParamOrError r paramName with
  | (_, Some err) => (0%Z, Some err)
  | (rawValue, None) => positive_or_error paramName (ParseInt rawValue)
  end.

Definition QueryParamAsBoolOrDefault (r : Request) (paramName : string)
           (deflt : bool) : bool * option error :=
  let (rawValue, ok) := QueryParam r paramName in
  if negb ok || (String.length rawValue =? 0)%nat then (deflt, None)
  else
    match ParseBool rawValue with
    | (_, Some _) =>
        (false, Some (BadRequestf ("Parameter '" ++ paramName
                                   ++ "' must be a boolean.")))
    | (boolValue, None) => (boolValue, None)
    end.

Definition GetOptionalRemainderFromPath (r : Request) : string :=
  PathParamOrEmpty r PathParamRemainder.

Definition GetRemainderFromPath (r : Request) : string * option error :=
  PathParamOrError r PathParamRemainder.

Definition ParseQuery (r : Request) : string := FormValue r QueryParamQuery.

Definition ParsePage (r : Request) : Z :=
  let s := FormValue r QueryParamPage in
  let i := fst (Atoi s) in
  if (i <=? 0)%Z then 1%Z else i.


Definition ParseSort (r : Request) : string := FormValue r QueryParamSort.

End Helpers.

End Request.

(* ----------------------------------------------------------------- *)
(** *** The blame handler *)

Module RepoHandler.

Import Request.

(** What the handler writes to the response. *)
Inductive Rendered (Stream : Type) : Type :=
| TranslatedUserError (err : error)
| JSONArrayDynamic (stream : Stream).
Arguments TranslatedUserError {Stream} err.
Arguments JSONArrayDynamic {Stream} stream.

(** The arguments of a call of the controller. *)
Record BlameCall (Session : Type) : Type := {
  blame_session : Session;
  blame_repoRef : string;
  blame_gitRef : string;
  blame_path : string;
  blame_lineFrom : Z;
  blame_lineTo : Z
}.

Section Handler.

Variable BadRequestf : string -> error.

(** Names of query parameters and helpers of the request package that other
    files declare, and the controller. *)
Variable QueryParamLineFrom : string.
Variable QueryParamLineTo : string.
Variable Session : Type.
Variable Stream : Type.
Variable AuthSessionFrom : Request -> Session.
Variable GetRepoRefFromPath : Request -> string * option error.
Variable GetGitRefFromQueryOrDefault : Request -> string -> string.
Variable Blame : BlameCall Session -> Stream + error.

(** The handler: what is rendered, and the call of the controller when
    there was one. *)
Definition HandleBlame (r : Request)
  : Rendered Stream * option (BlameCall Session) :=
  let session := AuthSessionFrom r in
  match GetRepoRefFromPath r with
  | (_, Some err) => (TranslatedUserError err, None)
  | (repoRef, None) =>
      let path := GetOptionalRemainderFromPath r in
      match QueryParamAsPositiveInt64OrDefault BadRequestf r
                                               QueryParamLineFrom 0 with
      | (_, Some err) => (TranslatedUserError err, None)
      | (lineFrom, None) =>
          match QueryParamAsPositiveInt64OrDefault BadRequestf r
                                                   QueryParamLineTo 0 with
          | (_, Some err) => (TranslatedUserError err, None)
          | (lineTo, None) =>
              let gitRef := GetGitRefFromQueryOrDefault r "" in
              let args := {| blame_session := session;
                             blame_repoRef := repoRef;
                             blame_gitRef := gitRef;
                             blame_path := path;
                             blame_lineFrom := lineFrom;
                             blame_lineTo := lineTo |} in
              match Blame args with
              | inr err => (TranslatedUserError err, Some args)
              | inl stream => (JSONArrayDynamic stream, Some args)
              end
          end
      end
  end.

(** A line number as the handler passes it on for a parameter of the
    query: 0 when the key is not there, else the positive number that its
    first value parses to. *)
Definition line_of (r : Request) (paramName : string) (line : Z) : Prop :=
  (Query r paramName = None /\ line = 0%Z) \/
  (Query r paramName <> None /\ (0 < line < 2 ^ 63)%Z /\
   ParseInt (Get r paramName) = (line, None)).

End Handler.

End RepoHandler.

(* ----------------------------------------------------------------- *)
(** *** The metric collector *)

Module Metric.

Definition jobType : string := "metric-collector".

Record metricData : Type := {
  IP : string;
  Hostname : string;
  Installer : string;
  Installed : string;
  Version : string;
  Users : Z;
  Repos : Z;
  Pipelines : Z;
  Executions : Z
}.

(** Of the collector, the fields that are plain data; the stores and the
    scheduler are the surroundings below. *)
Record Collector : Type := {
  hostname : string;
  enabled : bool;
  endpoint : string;
  token : string
}.

(** Of a user the collector reads the mail address and the creation time. *)
Record User : Type := { Email : string; Created : Z }.

Record HttpRequest : Type := {
  req_method : string;
  req_url : string;
  req_body : bytes;
  req_header : list (string * string)
}.

(** An error of [Handle]: one passed on as it is, or one wrapped by
    [fmt.Errorf] with [%w] behind a message. *)
Inductive HandleError : Type :=
| Passed (err : error)
| Wrapped (message : string) (err : error).

(** What the collector asks of its surroundings, in order. *)
Inductive Asked : Type :=
| AskListUsers (page size : Z)
| AskCountUsers
| AskCountRepos
| AskCountPipelines
| AskCountExecutions
| AskDo (req : HttpRequest)
| AskCloseBody
| AskAddRecurring (uid type cron : string) (timeout : Z).

Section Collecting.

(** The stores, the version of the program, the formatting of a Unix time
    with [time.DateTime], the JSON encoder, the check that
    [http.NewRequest] makes of method and URL, and the HTTP client. *)
Variable ListUsers : Z -> Z -> list User + error.
Variable CountUsers : Z + error.
Variable CountRepos : Z + error.
Variable CountPipelines : Z + error.
Variable CountExecutions : Z + error.
Variable version_String : string.
Variable format_DateTime : Z -> string.
Variable json_Encode : metricData -> bytes + error.
Variable http_NewRequest : string -> string -> option error.
Variable httpClient_Do : HttpRequest -> string + error.

Definition Register (c : Collector) : list Asked :=
  if negb (enabled c) then []
  else [AskAddRecurring jobType jobType "0 0 * * *" 60000000000
                        (* time.Minute *)].

(** [Handle]: the status and the error returned, and what was asked. *)
Definition Handle (c : Collector)
  : (string * option HandleError) * list Asked :=
  if negb (enabled c) then (("", None), [])
  else
    match ListUsers 1 1 with
    | inr err => (("", Some (Passed err)), [AskListUsers 1 1])
    | inl [] => (("", None), [AskListUsers 1 1])
    | inl (first :: _) =>
    match CountUsers with
    | inr err =>
        (("", Some (Wrapped "failed to get users total count: " err)),
         [AskListUsers 1 1; AskCountUsers])
    | inl totalUsers =>
    match CountRepos with
    | inr err =>
        (("", Some (Wrapped "failed to get repositories total count: " err)),
         [AskListUsers 1 1; AskCountUsers; AskCountRepos])
    | inl totalRepos =>
    match CountPipelines with
    | inr err =>
        (("", Some (Wrapped "failed to get pipelines total count: " err)),
         [AskListUsers 1 1; AskCountUsers; AskCountRepos; AskCountPipelines])
    | inl totalPipelines =>
    match CountExecutions with
    | inr err =>
        (("", Some (Wrapped "failed to get executions total count: " err)),
         [AskListUsers 1 1; AskCountUsers; AskCountRepos; AskCountPipelines;
          AskCountExecutions])
    | inl totalExecutions =>
    let asked := [AskListUsers 1 1; AskCountUsers; AskCountRepos;
                  AskCountPipelines; AskCountExecutions] in
    let data := {| IP := "";
                   Hostname := hostname c;
                   Installer := Email first;
                   Installed := format_DateTime (Created first);
                   Version := version_String;
                   Users := totalUsers;
                   Repos := totalRepos;
                   Pipelines := totalPipelines;
                   Executions := totalExecutions |} in
    match json_Encode data with
    | inr err =>
        (("", Some (Wrapped "failed to encode metric data: " err)), asked)
    | inl buf =>
    let endpoint := endpoint c ++ "?api_key=" ++ token c in
    match http_NewRequest "POST" endpoint with
    | Some err =>
        (("", Some (Wrapped ("failed to create a request for metric data to endpoint "
                             ++ endpoint ++ ": ") err)), asked)
    | None =>
    let req := {| req_method := "POST"; req_url := endpoint; req_body := buf;
                  req_header := [("Accept", "application/json");
                                 ("Content-Type", "application/json")] |} in
    match httpClient_Do req with
    | inr err =>
        (("", Some (Wrapped ("failed to send metric data to endpoint "
                             ++ endpoint ++ ": ") err)),
         (asked ++ [AskDo req])%list)
    | inl status =>
        ((status, None), (asked ++ [AskDo req; AskCloseBody])%list)
    end end end end end end end
    end.

End Collecting.

(** The requests that were sent. *)
Definition sent (asked : list Asked) : list HttpRequest :=
  flat_map (fun a => match a with AskDo req => [req] | _ => [] end) asked.

End Metric.

(* ----------------------------------------------------------------- *)
(** *** More sample inputs *)

(** A stream that is closed before the first message. *)
Definition stream_closed : nat -> Received :=
  fun _ => RecvErr (PlainError "EOF").

(** A request for the third page, ten entries a page, of commit 7. *)
Definition sample_request : Request.Request :=
  {| Request.URLParam := fun name => if name =? "*" then "src/main.go" else "";
     Request.Query := fun key => if key =? "commit" then Some ["007"; "8"]
                                 else None;
     Request.FormValue := fun key => if key =? "page" then "3"
                                     else if key =? "limit" then "10"
                                     else "" |}.

(** A host whose own environment defines the two correlation variables. *)
Definition host_with_correlation : list string :=
  ["PATH=/usr/bin:/bin"; "GITRPC_REPO_UID=other-repo";
   "GITRPC_PUSHER_ID=admin"].

(* ----------------------------------------------------------------- *)
(** *** The end of a run of git, for the logging of [serviceRPC] *)

(** What ended the process: the kill that os/exec sends when the context of
    the call is cancelled, the same signal sent by anyone else (the kernel
    short of memory, an operator), or git leaving by itself with a status
    that is not zero. *)
Inductive Ending : Type :=
| KilledOnCancel
| KilledOtherwise
| ExitStatus (status : string).

(** The error that [Run] returns for it.  os/exec renders the state of the
    process: [signal: killed] after the kill signal, whoever sent it, and
    [exit status n] after an exit. *)
Definition ending_error (e : Ending) : error :=
  PlainError match e with
             | KilledOnCancel | KilledOtherwise => "signal: killed"
             | ExitStatus status => "exit status " ++ status
             end.

(** A git whose process ends that way, with the given standard error. *)
Definition git_ends (e : Ending) (stderr : string)
  : Command -> RunOpts -> Outcome :=
  fun _ _ => {| out_stdout := []; out_stderr := stderr;
                out_err := Some (ending_error e) |}.

(** The rule of the specification for such a run, in its words: the error
    is returned to the caller in every case, and it is logged unless the
    process was killed because the call was cancelled. *)
Definition logged_unless_cancelled (e : Ending)
           (result : option error * list Event) : Prop :=
  fst result = Some (ending_error e) /\
  existsb is_log (snd result) = match e with
                                | KilledOnCancel => false
                                | _ => true
                                end.

(** A request whose form has the given page. *)
Definition request_with_page (page : string) : Request.Request :=
  {| Request.URLParam := fun _ => "";
     Request.Query := fun _ => None;
     Request.FormValue := fun key => if key =? "page" then page else "" |}.

(* ================================================================= *)
(** ** Part II.  Properties *)

Unset Implicit Arguments.

(* ----------------------------------------------------------------- *)
(** *** Strings and bytes *)

Lemma append_nil_r (s : string) : s ++ "" = s.
Proof. induction s; simpl; congruence. Qed.

Lemma append_assoc (s1 s2 s3 : string) : (s1 ++ s2) ++ s3 = s1 ++ (s2 ++ s3).
Proof. induction s1; simpl; congruence. Qed.

Lemma length_append (s1 s2 : string) :
  String.length (s1 ++ s2) = String.length s1 + String.length s2.
Proof. induction s1; simpl; congruence. Qed.

Lemma bytes_of_append (s1 s2 : string) :
  bytes_of (s1 ++ s2) = (bytes_of s1 ++ bytes_of s2)%list.
Proof.
  unfold bytes_of, list_byte_of_string.
  induction s1; simpl; [reflexivity | now f_equal].
Qed.

Lemma bytes_of_length (s : string) : List.length (bytes_of s) = String.length s.
Proof.
  unfold bytes_of, list_byte_of_string. induction s; simpl; congruence.
Qed.

Lemma string_forallb_append p (s1 s2 : string) :
  string_forallb p (s1 ++ s2) = string_forallb p s1 && string_forallb p s2.
Proof.
  induction s1; simpl; [reflexivity | now rewrite IHs1, andb_assoc].
Qed.

Lemma hex_value_from_append (s1 s2 : string) : forall a,
  hex_value_from a (s1 ++ s2) = hex_value_from (hex_value_from a s1) s2.
Proof. induction s1; simpl; intros; [reflexivity | apply IHs1]. Qed.

(* ----------------------------------------------------------------- *)
(** *** Hexadecimal formatting *)

(** Case analysis on a number below sixteen. *)
Ltac below16 u :=
  destruct u as [|?];
  [| repeat (match goal with
           | p : positive |- _ => destruct p as [?|?|]
           end; try (exfalso; lia)) ].

Lemma digit_at_value (d : N) : (d < 16)%N -> hex_digit_value (digit_at d) = d.
Proof. intros H. below16 d; reflexivity. Qed.

Lemma digit_at_lower_hex (d : N) : (d < 16)%N -> is_lower_hex (digit_at d) = true.
Proof. intros H. below16 d; reflexivity. Qed.

Lemma land_15 (u : N) : N.land u 15 = (u mod 16)%N.
Proof. change 15%N with (N.ones 4). now rewrite N.land_ones. Qed.

Lemma shiftr_4 (u : N) : N.shiftr u 4 = (u / 16)%N.
Proof. now rewrite N.shiftr_div_pow2. Qed.

(** The loop, one iteration unfolded. *)
Lemma formatBits16_step (u : N) (acc : string) :
  formatBits16 u acc =
  if (u <? 16)%N then String (digit_at u) acc
  else formatBits16 (u / 16) (String (digit_at (u mod 16)) acc).
Proof.
  rewrite formatBits16_equation_1.
  destruct (inspect (u <? 16)%N) as [[|] Hb]; simpl.
  - now rewrite Hb.
  - rewrite <- shiftr_4, <- land_15. now rewrite Hb.
Qed.

(** Induction along the loop. *)
Lemma formatBits16_ind' (P : N -> Prop) :
  (forall u, (u < 16)%N -> P u) ->
  (forall u, (16 <= u)%N -> P (u / 16)%N -> P u) ->
  forall u, P u.
Proof.
  intros Hlow Hstep u.
  induction u as [u IH] using (well_founded_induction N.lt_wf_0).
  destruct (N.lt_ge_cases u 16) as [Hlt | Hge].
  - now apply Hlow.
  - apply Hstep; [assumption |]. apply IH. apply N.div_lt; lia.
Qed.

Lemma formatBits16_acc (u : N) : forall acc,
  formatBits16 u acc = formatBits16 u "" ++ acc.
Proof.
  induction u as [u Hu | u Hu IH] using formatBits16_ind'; intros acc.
  - rewrite (formatBits16_step u acc), (formatBits16_step u "").
    apply N.ltb_lt in Hu. now rewrite Hu.
  - rewrite (formatBits16_step u acc), (formatBits16_step u "").
    apply N.ltb_ge in Hu. rewrite Hu.
    rewrite IH, (IH (String _ "")), append_assoc. reflexivity.
Qed.

Lemma formatBits16_value (u : N) : hex_value (formatBits16 u "") = u.
Proof.
  unfold hex_value.
  induction u as [u Hu | u Hu IH] using formatBits16_ind'.
  - rewrite formatBits16_step. pose proof Hu as Hb.
    apply N.ltb_lt in Hb. rewrite Hb. simpl hex_value_from.
    now rewrite digit_at_value.
  - rewrite formatBits16_step. pose proof Hu as Hb.
    apply N.ltb_ge in Hb. rewrite Hb.
    rewrite formatBits16_acc, hex_value_from_append, IH.
    cbn [hex_value_from]. rewrite digit_at_value by (apply N.mod_lt; lia).
    symmetry. apply N.div_mod. lia.
Qed.

Lemma formatBits16_lower_hex (u : N) :
  string_forallb is_lower_hex (formatBits16 u "") = true.
Proof.
  induction u as [u Hu | u Hu IH] using formatBits16_ind'.
  - rewrite formatBits16_step. pose proof Hu as Hb.
    apply N.ltb_lt in Hb. rewrite Hb. simpl.
    now rewrite digit_at_lower_hex.
  - rewrite formatBits16_step. pose proof Hu as Hb.
    apply N.ltb_ge in Hb. rewrite Hb.
    rewrite formatBits16_acc, string_forallb_append, IH. simpl.
    now rewrite digit_at_lower_hex by (apply N.mod_lt; lia).
Qed.

Lemma formatBits16_length_pos (u : N) :
  1 <= String.length (formatBits16 u "").
Proof.
  rewrite formatBits16_step. destruct (u <? 16)%N.
  - simpl. lia.
  - rewrite formatBits16_acc, length_append. simpl. lia.
Qed.

(** A number below [16^(k+1)] has at most [k+1] digits. *)
Lemma formatBits16_length_le (k : nat) : forall u,
  (u < 16 ^ N.of_nat (S k))%N -> String.length (formatBits16 u "") <= S k.
Proof.
  induction k as [|k IH]; intros u Hu.
  - rewrite formatBits16_step.
    change (16 ^ N.of_nat 1)%N with 16%N in Hu.
    apply N.ltb_lt in Hu. rewrite Hu. simpl. lia.
  - rewrite formatBits16_step. destruct (u <? 16)%N eqn:E.
    + simpl. lia.
    + rewrite formatBits16_acc, length_append. simpl.
      assert (u / 16 < 16 ^ N.of_nat (S k))%N.
      { apply N.Div0.div_lt_upper_bound.
        replace (N.of_nat (S (S k))) with (N.succ (N.of_nat (S k))) in Hu by lia.
        now rewrite N.pow_succ_r' in Hu. }
      specialize (IH _ H). lia.
Qed.

(** Zeros in front change neither the value nor the character set. *)
Lemma hex_value_zeros (k : nat) (s : string) :
  hex_value (Repeat "0" k ++ s) = hex_value s.
Proof.
  unfold hex_value. induction k; simpl; [reflexivity | exact IHk].
Qed.

Lemma lower_hex_zeros (k : nat) (s : string) :
  string_forallb is_lower_hex (Repeat "0" k ++ s)
  = string_forallb is_lower_hex s.
Proof. induction k; simpl; [reflexivity | exact IHk]. Qed.

Lemma length_zeros (k : nat) : String.length (Repeat "0" k) = k.
Proof. induction k; simpl; congruence. Qed.

(* ----------------------------------------------------------------- *)
(** *** The packet-line encoder *)

Lemma int64_small (z : Z) : (- 2 ^ 63 <= z < 2 ^ 63)%Z -> int64 z = z.
Proof. intros H. unfold int64. rewrite Z.mod_small; lia. Qed.

Lemma FormatInt16_nonneg (z : Z) :
  (0 <= z)%Z -> FormatInt16 z = formatBits16 (Z.to_N z) "".
Proof.
  intros H. unfold FormatInt16.
  destruct (z <? 0)%Z eqn:E; [apply Z.ltb_lt in E; lia | reflexivity].
Qed.

(** For every line whose length plus four fits an [int64], the encoder
    writes a header of lowercase hexadecimal digits whose value is that
    length plus four and whose width is a multiple of four, then the
    line. *)
Lemma packetWrite_header (str : string) :
  (len str + 4 < 2 ^ 63)%Z ->
  exists hdr,
    packetWrite str = (bytes_of hdr ++ bytes_of str)%list /\
    (String.length hdr) mod 4 = 0 /\
    String.length hdr < String.length (FormatInt16 (len str + 4)) + 4 /\
    string_forallb is_lower_hex hdr = true /\
    Z.of_N (hex_value hdr) = (len str + 4)%Z.
Proof.
  intros Hfit. unfold packetWrite.
  assert (Hpos : (0 <= len str + 4)%Z) by (unfold len; lia).
  rewrite int64_small by lia. rewrite FormatInt16_nonneg by assumption.
  set (f := formatBits16 (Z.to_N (len str + 4)) "").
  assert (Hval : Z.of_N (hex_value f) = (len str + 4)%Z).
  { unfold f. rewrite formatBits16_value. lia. }
  assert (Hhex : string_forallb is_lower_hex f = true)
    by apply formatBits16_lower_hex.
  assert (Hmod : (len f mod 4 = Z.of_nat (String.length f mod 4))%Z).
  { unfold len. now rewrite (Nat2Z.inj_mod (String.length f) 4). }
  assert (Hlt : String.length f mod 4 < 4) by (apply Nat.mod_upper_bound; lia).
  destruct (len f mod 4 =? 0)%Z eqn:E; simpl negb; cbv iota.
  - apply Z.eqb_eq in E.
    exists f. rewrite bytes_of_append. repeat split; try assumption; lia.
  - apply Z.eqb_neq in E.
    exists (Repeat "0" (Z.to_nat (4 - len f mod 4)) ++ f).
    rewrite bytes_of_append, length_append, length_zeros.
    rewrite hex_value_zeros, lower_hex_zeros, Hmod.
    replace (Z.to_nat (4 - Z.of_nat (String.length f mod 4)))
      with (4 - String.length f mod 4) by lia.
    repeat split; try assumption.
    + pose proof (Nat.div_mod_eq (String.length f) 4) as Hd.
      replace (4 - String.length f mod 4 + String.length f)
        with ((String.length f / 4 + 1) * 4) by lia.
      apply Nat.Div0.mod_mul.
    + lia.
Qed.

(** C2, as amended: for every line of at most 65531 bytes (length plus four
    below 65536), the encoder returns a header of exactly four lowercase
    hexadecimal characters whose value is the length plus four, padded with
    zeros on the left, followed by the line as it is. *)
Theorem packetWrite_encode (str : string) :
  (len str + 4 < 65536)%Z -> encode_spec str.
Proof.
  intros Hsmall.
  destruct (packetWrite_header str) as (hdr & Heq & Hmod & Hlen & Hhex & Hval);
    [lia |].
  exists hdr. split; [| exact Heq].
  assert (Hpos : (0 <= len str + 4)%Z) by (unfold len; lia).
  rewrite FormatInt16_nonneg in Hlen by assumption.
  pose proof (@formatBits16_length_le 3 (Z.to_N (len str + 4))) as Hle.
  change (16 ^ N.of_nat 4)%N with 65536%N in Hle.
  specialize (Hle ltac:(lia)).
  assert (Hne : String.length hdr <> 0).
  { intros H0. destruct hdr; [| discriminate].
    unfold hex_value in Hval. simpl in Hval. unfold len in Hval. lia. }
  constructor; try assumption.
  pose proof (Nat.div_mod_eq (String.length hdr) 4). lia.
Qed.

Lemma packetWrite_encode_witness :
  (len "want" + 4 < 65536)%Z /\ encode_spec "want".
Proof.
  split; [reflexivity | apply (packetWrite_encode "want"); reflexivity].
Defined.

Lemma length_Repeat_char (c : ascii) (k : nat) :
  String.length (Repeat (String c "") k) = k.
Proof. induction k; simpl; congruence. Qed.

(** For the long line the header is padded to eight characters. *)
Lemma packetWrite_long_line :
  packetWrite long_line = (bytes_of "00010000" ++ bytes_of long_line)%list.
Proof.
  unfold packetWrite.
  assert (Hlen : (len long_line + 4 = 65536)%Z).
  { unfold len, long_line. rewrite length_Repeat_char. lia. }
  rewrite Hlen.
  assert (Hfmt : FormatInt16 (int64 65536) = "10000")
    by (vm_compute; reflexivity).
  rewrite Hfmt. cbn -[long_line bytes_of]. apply bytes_of_append.
Qed.

(** C2, as stated, fails for a line of 65532 bytes: the header is eight
    characters wide, not four. *)
Lemma long_line_not_encoded : ~ encode_spec long_line.
Proof.
  intros (hdr & [Hw _ _] & Heq).
  rewrite packetWrite_long_line in Heq.
  apply (f_equal (@List.length byte)) in Heq.
  rewrite !length_app, !bytes_of_length, Hw in Heq.
  change (String.length "00010000") with 8 in Heq. lia.
Qed.

(* ----------------------------------------------------------------- *)
(** *** Regular expressions: the matcher decides the language *)

Lemma append_eq_nil (s1 s2 : string) : s1 ++ s2 = "" -> s1 = "" /\ s2 = "".
Proof. destruct s1; simpl; [auto | discriminate]. Qed.

Lemma lang_none_inv (s : string) : ~ re_lang ReNone s.
Proof. intros H. inversion H. Qed.

Lemma lang_eps_inv (s : string) : re_lang ReEps s -> s = "".
Proof. intros H. now inversion H. Qed.

Lemma lang_class_inv p (s : string) :
  re_lang (ReClass p) s -> exists c, s = String c "" /\ p c = true.
Proof. intros H. inversion H; subst. eauto. Qed.

Lemma lang_cat_inv (r1 r2 : regex) (s : string) :
  re_lang (ReCat r1 r2) s ->
  exists s1 s2, s = s1 ++ s2 /\ re_lang r1 s1 /\ re_lang r2 s2.
Proof. intros H. inversion H; subst. eauto. Qed.

Lemma lang_alt_inv (r1 r2 : regex) (s : string) :
  re_lang (ReAlt r1 r2) s -> re_lang r1 s \/ re_lang r2 s.
Proof. intros H. inversion H; subst; auto. Qed.

(** A non-empty word of a star starts with a non-empty word of its body. *)
Lemma lang_star_cons_inv (r : regex) (c : ascii) (s : string) :
  re_lang (ReStar r) (String c s) ->
  exists s1 s2, s = s1 ++ s2 /\ re_lang r (String c s1) /\ re_lang (ReStar r) s2.
Proof.
  intros H. remember (ReStar r) as r' eqn:Er. remember (String c s) as w eqn:Ew.
  induction H as [| | | | | | r0 s1 s2 H1 _ H2 IH2]; try discriminate.
  injection Er as ->.
  destruct s1 as [| c1 s1]; simpl in Ew.
  - now apply IH2.
  - injection Ew as -> <-. now exists s1, s2.
Qed.

Lemma lang_cat_cons (r1 r2 : regex) (c : ascii) (s1 s2 : string) :
  re_lang r1 (String c s1) -> re_lang r2 s2 ->
  re_lang (ReCat r1 r2) (String c (s1 ++ s2)).
Proof.
  intros H1 H2. change (String c (s1 ++ s2)) with (String c s1 ++ s2).
  now constructor.
Qed.

Lemma nullable_lang (r : regex) : nullable r = true <-> re_lang r "".
Proof.
  induction r as [| | p | r1 IH1 r2 IH2 | r1 IH1 r2 IH2 | r1 IH1]; simpl.
  - split; [discriminate | intros H; now apply lang_none_inv in H].
  - split; [constructor | reflexivity].
  - split; [discriminate |].
    intros H. apply lang_class_inv in H as (c & E & _). discriminate.
  - rewrite andb_true_iff, IH1, IH2. split.
    + intros [H1 H2]. change "" with ("" ++ ""). now constructor.
    + intros H. apply lang_cat_inv in H as (s1 & s2 & E & H1 & H2).
      symmetry in E. apply append_eq_nil in E as [-> ->]. now split.
  - rewrite orb_true_iff, IH1, IH2. split.
    + intros [H | H]; [now apply lang_alt_l | now apply lang_alt_r].
    + apply lang_alt_inv.
  - split; [constructor | reflexivity].
Qed.

Lemma deriv_lang (r : regex) : forall c s,
  re_lang (deriv c r) s <-> re_lang r (String c s).
Proof.
  induction r as [| | p | r1 IH1 r2 IH2 | r1 IH1 r2 IH2 | r1 IH1];
    intros c s; simpl.
  - split; intros H; now apply lang_none_inv in H.
  - split; intros H; [now apply lang_none_inv in H |].
    apply lang_eps_inv in H. discriminate.
  - split.
    + destruct (p c) eqn:Hp; intros H; [| now apply lang_none_inv in H].
      apply lang_eps_inv in H. subst s. now constructor.
    + intros H. apply lang_class_inv in H as (c' & E & Hp).
      injection E as -> ->. rewrite Hp. constructor.
  - assert (Hcat : re_lang (ReCat (deriv c r1) r2) s ->
                   re_lang (ReCat r1 r2) (String c s)).
    { intros H. apply lang_cat_inv in H as (s1 & s2 & -> & H1 & H2).
      apply lang_cat_cons; [now apply IH1 | assumption]. }
    assert (Hinv : re_lang (ReCat r1 r2) (String c s) ->
                   re_lang (ReCat (deriv c r1) r2) s \/
                   (re_lang r1 "" /\ re_lang (deriv c r2) s)).
    { intros H. apply lang_cat_inv in H as (s1 & s2 & E & H1 & H2).
      destruct s1 as [| c1 s1]; simpl in E.
      - right. subst s2. split; [assumption | now apply IH2].
      - injection E as -> ->. left.
        constructor; [now apply IH1 | assumption]. }
    destruct (nullable r1) eqn:Hn.
    + split.
      * intros H. apply lang_alt_inv in H as [H | H]; [now apply Hcat |].
        apply nullable_lang in Hn.
        change (String c s) with ("" ++ String c s).
        constructor; [assumption | now apply IH2].
      * intros H. destruct (Hinv H) as [H' | [_ H']];
          [now apply lang_alt_l | now apply lang_alt_r].
    + split; [exact Hcat |].
      intros H. destruct (Hinv H) as [H' | [H' _]]; [assumption |].
      apply nullable_lang in H'. congruence.
  - split; intros H.
    + apply lang_alt_inv in H as [H | H];
        [apply lang_alt_l; now apply IH1 | apply lang_alt_r; now apply IH2].
    + apply lang_alt_inv in H as [H | H];
        [apply lang_alt_l; now apply IH1 | apply lang_alt_r; now apply IH2].
  - split.
    + intros H. apply lang_cat_inv in H as (s1 & s2 & -> & H1 & H2).
      change (String c (s1 ++ s2)) with (String c s1 ++ s2).
      constructor; [now apply IH1 | assumption].
    + intros H. apply lang_star_cons_inv in H as (s1 & s2 & -> & H1 & H2).
      constructor; [now apply IH1 | assumption].
Qed.

(** The matcher accepts exactly the words of the language. *)
Lemma MatchString_lang (s : string) : forall r,
  MatchString r s = true <-> re_lang r s.
Proof.
  induction s as [| c s IH]; intros r; simpl.
  - apply nullable_lang.
  - rewrite IH. apply deriv_lang.
Qed.

(* ----------------------------------------------------------------- *)
(** *** The allow-list pattern *)

Lemma lang_char (c : ascii) (s : string) :
  re_lang (ReChar c) s <-> s = String c "".
Proof.
  unfold ReChar. split.
  - intros H. apply lang_class_inv in H as (c' & -> & E).
    apply Ascii.eqb_eq in E. now subst.
  - intros ->. constructor. apply Ascii.eqb_refl.
Qed.

Lemma lang_star_class p (s : string) :
  re_lang (ReStar (ReClass p)) s <-> string_forallb p s = true.
Proof.
  split.
  - intros H. remember (ReStar (ReClass p)) as r eqn:Er.
    induction H as [| | | | | | r0 s1 s2 H1 _ H2 IH2]; try discriminate.
    + reflexivity.
    + injection Er as ->.
      apply lang_class_inv in H1 as (c & -> & Hc). simpl.
      rewrite Hc. now apply IH2.
  - induction s as [| c s IH]; simpl; intros H; [constructor |].
    apply andb_prop in H as [Hc Hs].
    change (String c s) with (String c "" ++ s).
    constructor; [now constructor | now apply IH].
Qed.

(** [[0-9a-zA-Z]+] is the set of words. *)
Lemma lang_word (w : string) :
  re_lang (RePlus (ReClass alnum)) w <-> is_word w.
Proof.
  unfold RePlus, is_word. split.
  - intros H. apply lang_cat_inv in H as (s1 & s2 & -> & H1 & H2).
    apply lang_class_inv in H1 as (c & -> & Hc).
    apply lang_star_class in H2. simpl. rewrite Hc, H2.
    split; [discriminate | reflexivity].
  - intros [Hne Hall]. destruct w as [| c w]; [congruence |].
    simpl in Hall. apply andb_prop in Hall as [Hc Hw].
    change (String c w) with (String c "" ++ w).
    constructor; [now constructor | now apply lang_star_class].
Qed.

Lemma lang_pair (s : string) :
  re_lang pair_re s <->
  exists k v, is_word k /\ is_word v /\ s = k ++ "=" ++ v.
Proof.
  unfold pair_re, word_re. split.
  - intros H. apply lang_cat_inv in H as (k & t & -> & Hk & Ht).
    apply lang_cat_inv in Ht as (e & v & -> & He & Hv).
    apply lang_char in He. subst e.
    apply lang_word in Hk. apply lang_word in Hv. now exists k, v.
  - intros (k & v & Hk & Hv & ->).
    constructor; [now apply lang_word |].
    constructor; [now apply lang_char | now apply lang_word].
Qed.

Lemma lang_more_pairs (t : string) :
  re_lang (ReStar (ReCat (ReChar ":") pair_re)) t ->
  forall k v, is_word k -> is_word v -> protocol_pairs (k ++ "=" ++ v ++ t).
Proof.
  intros H. remember (ReStar (ReCat (ReChar ":") pair_re)) as r eqn:Er.
  induction H as [| | | | | | r0 s1 s2 H1 _ H2 IH2]; try discriminate;
    intros k v Hk Hv.
  - rewrite append_nil_r. now constructor.
  - injection Er as ->.
    apply lang_cat_inv in H1 as (c & p & -> & Hc & Hp).
    apply lang_char in Hc. subst c.
    apply lang_pair in Hp as (k' & v' & Hk' & Hv' & ->).
    replace (k ++ "=" ++ v ++ (":" ++ k' ++ "=" ++ v') ++ s2)
      with (k ++ "=" ++ v ++ ":" ++ (k' ++ "=" ++ v' ++ s2)).
    + apply pairs_more; [assumption | assumption |]. now apply IH2.
    + simpl. do 3 f_equal. f_equal. now rewrite !append_assoc.
Qed.

(** The language of the pattern is the grammar [word=word(:word=word)*]. *)
Lemma safeGitProtocolHeader_lang (s : string) :
  re_lang safeGitProtocolHeader s <-> protocol_pairs s.
Proof.
  unfold safeGitProtocolHeader. split.
  - intros H. apply lang_cat_inv in H as (p & t & -> & Hp & Ht).
    apply lang_pair in Hp as (k & v & Hk & Hv & ->).
    rewrite !append_assoc. now apply lang_more_pairs.
  - intros H. induction H as [k v Hk Hv | k v rest Hk Hv _ IH].
    + rewrite <- (append_nil_r (k ++ "=" ++ v)).
      constructor; [| constructor]. apply lang_pair. now exists k, v.
    + apply lang_cat_inv in IH as (p & t & -> & Hp & Ht).
      replace (k ++ "=" ++ v ++ ":" ++ p ++ t)
        with ((k ++ "=" ++ v) ++ (":" ++ p) ++ t)
        by (now rewrite !append_assoc).
      constructor; [apply lang_pair; now exists k, v |].
      constructor; [| assumption].
      constructor; [now apply lang_char | assumption].
Qed.

(** The pattern of the source accepts exactly the strings of the grammar
    of the specification. *)
Lemma safeGitProtocolHeader_spec (s : string) :
  MatchString safeGitProtocolHeader s = true <-> protocol_pairs s.
Proof. rewrite MatchString_lang. apply safeGitProtocolHeader_lang. Qed.

(* ----------------------------------------------------------------- *)
(** *** Paths *)

Lemma Split_not_nil (sep : ascii) (s : string) : Split sep s <> [].
Proof.
  destruct s as [| c s]; simpl; [discriminate |].
  destruct (Ascii.eqb c sep); [discriminate |].
  destruct (Split sep s); discriminate.
Qed.

(** An element without separator, followed by a separator: it is the first
    piece of the split. *)
Lemma Split_element (sep : ascii) (w rest : string) :
  no_sep sep w = true ->
  Split sep (w ++ String sep rest) = w :: Split sep rest.
Proof.
  unfold no_sep. induction w as [| c w IH]; simpl; intros Hw.
  - now rewrite Ascii.eqb_refl.
  - apply andb_prop in Hw as [Hc Hw]. apply negb_true_iff in Hc.
    rewrite Hc, (IH Hw). reflexivity.
Qed.

Lemma Split_last (sep : ascii) (w : string) :
  no_sep sep w = true -> Split sep w = [w].
Proof.
  unfold no_sep. induction w as [| c w IH]; simpl; intros Hw; [reflexivity |].
  apply andb_prop in Hw as [Hc Hw]. apply negb_true_iff in Hc.
  rewrite Hc, (IH Hw). reflexivity.
Qed.

Lemma Split_Join (sep : ascii) (elems : list string) :
  elems <> [] ->
  Forall (fun e => no_sep sep e = true) elems ->
  Split sep (StringsJoin elems (String sep "")) = elems.
Proof.
  intros Hne Hall. induction Hall as [| e rest He Hrest IH]; [congruence |].
  destruct rest as [| e' rest'].
  - simpl. now apply Split_last.
  - change (StringsJoin (e :: e' :: rest') (String sep ""))
      with (e ++ String sep (StringsJoin (e' :: rest') (String sep ""))).
    rewrite Split_element by assumption.
    rewrite IH by discriminate. reflexivity.
Qed.

Lemma StringsJoin_app (l1 l2 : list string) (sep : string) :
  l1 <> [] -> l2 <> [] ->
  StringsJoin (l1 ++ l2) sep = StringsJoin l1 sep ++ sep ++ StringsJoin l2 sep.
Proof.
  intros H1 H2. induction l1 as [| e l1 IH]; [congruence |].
  destruct l1 as [| e' l1'].
  - destruct l2; [congruence | reflexivity].
  - change (StringsJoin ((e :: e' :: l1') ++ l2) sep)
      with (e ++ sep ++ StringsJoin ((e' :: l1') ++ l2) sep).
    rewrite IH by discriminate.
    change (StringsJoin (e :: e' :: l1') sep)
      with (e ++ sep ++ StringsJoin (e' :: l1') sep).
    now rewrite !append_assoc.
Qed.

(** Text after the last element of a joined path belongs to that element. *)
Lemma StringsJoin_last (l : list string) (e tail sep : string) :
  StringsJoin (l ++ [e]) sep ++ tail = StringsJoin (l ++ [e ++ tail]) sep.
Proof.
  destruct l as [| a l]; [reflexivity |].
  rewrite !StringsJoin_app by discriminate.
  simpl StringsJoin. now rewrite !append_assoc.
Qed.

Lemma plain_facts (e : string) :
  plain e = true ->
  (e =? "") = false /\ (e =? ".") = false /\ (e =? "..") = false /\
  no_sep "/" e = true.
Proof.
  unfold plain. intros H.
  repeat (apply andb_prop in H as [H ?]).
  repeat match goal with
         | E : negb _ = true |- _ => apply negb_true_iff in E
         end.
  auto.
Qed.

Lemma clean_step_plain (rooted : bool) (out : list string) (e : string) :
  plain e = true -> clean_step rooted out e = e :: out.
Proof.
  intros H. apply plain_facts in H as (H1 & H2 & H3 & _).
  unfold clean_step. now rewrite H1, H2, H3.
Qed.

(** Plain elements are all kept. *)
Lemma clean_plain (rooted : bool) (elems : list string) : forall out,
  Forall (fun e => plain e = true) elems ->
  fold_left (clean_step rooted) elems out = (rev elems ++ out)%list.
Proof.
  induction elems as [| e elems IH]; intros out Hall; [reflexivity |].
  inversion Hall as [| ? ? He Hrest]; subst. simpl.
  rewrite clean_step_plain by assumption.
  rewrite IH by assumption. now rewrite <- app_assoc.
Qed.

Lemma prefix_append (a b c : string) :
  String.prefix (a ++ b) (a ++ c) = String.prefix b c.
Proof.
  induction a as [| x a IH]; simpl; [reflexivity |].
  destruct (ascii_dec x x); [exact IH | congruence].
Qed.

Lemma eqb_append_cons (a : string) (c : ascii) (b : string) :
  (a ++ String c b =? a) = false.
Proof.
  apply String.eqb_neq. intros H.
  apply (f_equal String.length) in H. rewrite length_append in H.
  simpl in H. lia.
Qed.

Lemma prefix_root (s : string) : String.prefix "/" ("/" ++ s) = true.
Proof.
  simpl. destruct (ascii_dec "/" "/"); [now destruct s | congruence].
Qed.

(** [..] after the directory [name] of an absolute path takes [name] off,
    and the element [y] that follows takes its place. *)
Lemma Clean_sibling (parents : list string) (name y : string) :
  Forall (fun e => plain e = true) parents ->
  plain name = true -> plain y = true ->
  Clean ("/" ++ StringsJoin (parents ++ [name; ".."; y]) "/")
  = "/" ++ StringsJoin (parents ++ [y]) "/".
Proof.
  intros Hparents Hname Hy.
  unfold Clean. rewrite prefix_root. f_equal.
  change (Split "/" ("/" ++ StringsJoin (parents ++ [name; ".."; y]) "/"))
    with ("" :: Split "/" (StringsJoin (parents ++ [name; ".."; y]) "/")).
  rewrite Split_Join.
  - cbn [fold_left]. change (clean_step true [] "") with (@nil string).
    rewrite fold_left_app, (clean_plain true parents []) by assumption.
    cbn [fold_left]. rewrite (clean_step_plain true _ name) by assumption.
    rewrite app_nil_r.
    assert (Hpop : clean_step true (name :: rev parents) ".." = rev parents).
    { apply plain_facts in Hname as (_ & _ & Hdd & _).
      unfold clean_step. simpl. now rewrite Hdd. }
    rewrite Hpop, (clean_step_plain true _ y) by assumption.
    simpl rev. now rewrite rev_involutive.
  - now destruct parents.
  - apply Forall_app. split.
    + eapply Forall_impl; [| exact Hparents].
      intros e He. now apply plain_facts in He.
    + repeat constructor;
        [now apply plain_facts in Hname | now apply plain_facts in Hy].
Qed.

Lemma no_sep_append (sep : ascii) (a b : string) :
  no_sep sep (a ++ b) = no_sep sep a && no_sep sep b.
Proof. apply string_forallb_append. Qed.

(** The directory name of a repository made from a plain name is plain. *)
Lemma plain_repo_dir (name suffix : string) :
  plain name = true -> no_sep "/" suffix = true ->
  plain (name ++ "." ++ suffix) = true.
Proof.
  intros Hname Hsuffix.
  destruct (plain_facts name Hname) as (Hne & Hdot & _ & Hsep).
  assert (H1 : name ++ "." ++ suffix <> "").
  { destruct name; discriminate. }
  assert (H2 : name ++ "." ++ suffix <> ".").
  { destruct name as [| a [| b name]]; discriminate. }
  assert (H3 : name ++ "." ++ suffix <> "..").
  { destruct name as [| a [| b name]]; [discriminate | |].
    - intros E. injection E as -> _. discriminate.
    - intros E. injection E as _ _ E. destruct name; discriminate. }
  apply String.eqb_neq in H1, H2, H3.
  unfold plain. rewrite H1, H2, H3, !no_sep_append, Hsep, Hsuffix.
  reflexivity.
Qed.

Section PathResolver.

Variable gitRepoSuffix : string.

Local Abbreviation path_of := (getFullPathForRepo gitRepoSuffix).

(** A UID that starts with [../] and goes on with the name of the root
    directory resolves to the root directory with the suffix appended. *)
Lemma getFullPathForRepo_sibling (parents : list string) (name : string) :
  Forall (fun e => plain e = true) parents ->
  plain name = true ->
  no_sep "/" gitRepoSuffix = true ->
  let root := "/" ++ StringsJoin (parents ++ [name]) "/" in
  path_of {| reposRoot := root |} ("../" ++ name)
  = root ++ "." ++ gitRepoSuffix.
Proof.
  intros Hparents Hname Hsuffix root.
  unfold getFullPathForRepo, Join; cbn [reposRoot].
  change (root =? "") with false. cbv iota.
  set (y := name ++ "." ++ gitRepoSuffix).
  replace (StringsJoin [root; ("../" ++ name) ++ "." ++ gitRepoSuffix] "/")
    with ("/" ++ StringsJoin (parents ++ [name; ".."; y]) "/").
  - rewrite Clean_sibling
      by (assumption || now apply plain_repo_dir).
    unfold root, y.
    change ("/" ++ StringsJoin (parents ++ [name ++ "." ++ gitRepoSuffix]) "/")
      with ("/" ++ (StringsJoin (parents ++ [name ++ "." ++ gitRepoSuffix]) "/")).
    now rewrite <- StringsJoin_last.
  - change (parents ++ [name; ".."; y])%list
      with (parents ++ [name] ++ [".."; y])%list.
    rewrite app_assoc, StringsJoin_app
      by (discriminate || now destruct parents).
    unfold root. cbn [StringsJoin]. unfold y.
    now rewrite !append_assoc.
Qed.

(** C10: the path of a repository is the join of the root with
    [uid.suffix] for every UID, separators and [..] included, without any
    check; so for a root [/.../name] the UID [../name] resolves to
    [/.../name.suffix], a directory that is not inside the root. *)
Theorem getFullPathForRepo_unchecked (parents : list string)
        (name : string) :
  Forall (fun e => plain e = true) parents ->
  plain name = true ->
  no_sep "/" gitRepoSuffix = true ->
  let s := {| reposRoot := "/" ++ StringsJoin (parents ++ [name]) "/" |} in
  (forall uid,
      path_of s uid = Join [reposRoot s; uid ++ "." ++ gitRepoSuffix]) /\
  path_of s ("../" ++ name) = reposRoot s ++ "." ++ gitRepoSuffix /\
  within (reposRoot s) (path_of s ("../" ++ name)) = false.
Proof.
  intros Hparents Hname Hsuffix s.
  pose proof (getFullPathForRepo_sibling parents name
                Hparents Hname Hsuffix) as Hsib.
  cbv zeta in Hsib. fold s in Hsib.
  split; [reflexivity |]. split; [exact Hsib |].
  rewrite Hsib. unfold within. subst s. cbn [reposRoot].
  set (root := "/" ++ StringsJoin (parents ++ [name]) "/").
  change ("." ++ gitRepoSuffix) with (String "." gitRepoSuffix).
  rewrite (eqb_append_cons root "." gitRepoSuffix), prefix_append.
  simpl.
  destruct (ascii_dec "/" "."); [discriminate | reflexivity].
Qed.

End PathResolver.

Lemma getFullPathForRepo_unchecked_witness :
  getFullPathForRepo "git" {| reposRoot := "/data/repos" |} "../repos"
  = "/data/repos.git" /\
  within "/data/repos"
         (getFullPathForRepo "git" {| reposRoot := "/data/repos" |} "../repos")
  = false.
Proof.
  apply (getFullPathForRepo_unchecked "git" ["data"] "repos").
  - repeat constructor.
  - reflexivity.
  - reflexivity.
Defined.

(* ----------------------------------------------------------------- *)
(** *** Environments *)

Lemma entry_value_same (k v : string) : entry_value k (k ++ "=" ++ v) = Some v.
Proof.
  induction k as [| a k IH]; simpl; [reflexivity |].
  now rewrite Ascii.eqb_refl.
Qed.

Lemma entry_value_other (k : string) : forall k' v,
  var_name k = true -> var_name k' = true -> k <> k' ->
  entry_value k (k' ++ "=" ++ v) = None.
Proof.
  unfold var_name.
  induction k as [| a k IH]; intros [| b k'] v Hk Hk' Hne; simpl in *.
  - congruence.
  - apply andb_prop in Hk' as [Hb _].
    destruct (Ascii.eqb b "="); [discriminate | reflexivity].
  - apply andb_prop in Hk as [Ha _].
    destruct (Ascii.eqb a "="); [discriminate | reflexivity].
  - apply andb_prop in Hk as [_ Hk]. apply andb_prop in Hk' as [_ Hk'].
    destruct (Ascii.eqb a b) eqn:E; [| reflexivity].
    apply Ascii.eqb_eq in E. subst b.
    apply IH; [assumption | assumption | congruence].
Qed.

Lemma getenv_app (k : string) (l1 l2 : list string) :
  getenv k (l1 ++ l2) =
  match getenv k l2 with
  | Some v => Some v
  | None => getenv k l1
  end.
Proof.
  induction l1 as [| e l1 IH]; simpl.
  - now destruct (getenv k l2).
  - rewrite IH. now destruct (getenv k l2).
Qed.

Lemma getenv_one (k e : string) : getenv k [e] = entry_value k e.
Proof. reflexivity. Qed.

(** What [correlation_names] says, one fact at a time. *)
Lemma correlation_names_facts (repoVar pusherVar : string) :
  correlation_names repoVar pusherVar = true ->
  var_name repoVar = true /\ var_name pusherVar = true /\
  repoVar <> pusherVar /\
  repoVar <> "SSH_ORIGINAL_COMMAND" /\ pusherVar <> "SSH_ORIGINAL_COMMAND" /\
  repoVar <> "GIT_PROTOCOL" /\ pusherVar <> "GIT_PROTOCOL".
Proof.
  unfold correlation_names. intros H.
  repeat (apply andb_prop in H as [H ?]).
  repeat match goal with
         | E : negb _ = true |- _ =>
             apply negb_true_iff in E; apply String.eqb_neq in E
         end.
  tauto.
Qed.

(* ----------------------------------------------------------------- *)
(** *** The two operations *)

(** Runs a call as far as the next test on something the surroundings
    decide. *)
Ltac exec :=
  cbv [call bind ret return_err on_err emit init fst snd trace recvs sends
       app InfoRefs io_Copy Write Send Run Recv ServicePack serviceRPC].

Section ServiceProperties.

Variable gitRepoSuffix : string.
Variable EnvRepoUID : string.
Variable EnvPusherID : string.
Variable GitExecutable : string.
Variable os_Environ : list string.
Variable git_run : Command -> RunOpts -> Outcome.
Variable stream_recv : nat -> Received.
Variable stream_send : nat -> bytes -> option error.

Local Arguments packetWrite : simpl never.
Local Arguments bytes_of : simpl never.
Local Arguments getFullPathForRepo : simpl never.
Local Arguments InfoRefs_environ : simpl never.
Local Arguments serviceRPC_environ : simpl never.
Local Arguments String.eqb : simpl never.

Local Abbreviation path_of := (getFullPathForRepo gitRepoSuffix).
Local Abbreviation rpc_cmd := (serviceRPC_cmd GitExecutable).
Local Abbreviation rpc_opts :=
  (serviceRPC_opts EnvRepoUID EnvPusherID os_Environ).
Local Abbreviation rpc :=
  (serviceRPC EnvRepoUID EnvPusherID GitExecutable os_Environ git_run).
Local Abbreviation service_pack :=
  (ServicePack gitRepoSuffix EnvRepoUID EnvPusherID GitExecutable
               os_Environ git_run stream_recv).
Local Abbreviation info_refs :=
  (InfoRefs gitRepoSuffix os_Environ git_run stream_send).
Local Abbreviation info_opts := (InfoRefs_opts gitRepoSuffix os_Environ).

(** A first message that is accepted: the call is the run of
    [serviceRPC] after the receive. *)
Lemma ServicePack_accepted (s : smartHTTPService) (req : ServicePackRequest) :
  stream_recv 0 = RecvMsg req ->
  Data req = None ->
  RepoUid req <> "" ->
  call (service_pack s) =
  let dir := path_of s (RepoUid req) in
  let (e, tr) := call (rpc (NewReader stream_recv) req dir) in
  (e, EvRecv (RecvMsg req) :: tr).
Proof.
  intros Hrecv Hdata Huid.
  apply String.eqb_neq in Huid.
  unfold call, ServicePack, serviceRPC, bind, Recv, Run, emit, ret,
    return_err, init; simpl.
  rewrite Hrecv, Hdata, Huid.
  destruct (out_err _) as [err |]; [| reflexivity].
  destruct (negb _); reflexivity.
Qed.

(** A first message that is refused: an invalid-argument error, and the
    receive is all that happened. *)
Lemma ServicePack_refused (s : smartHTTPService) (req : ServicePackRequest) :
  stream_recv 0 = RecvMsg req ->
  Data req <> None \/ RepoUid req = "" ->
  has_code InvalidArgument (fst (call (service_pack s))) /\
  snd (call (service_pack s)) = [EvRecv (RecvMsg req)].
Proof.
  intros Hrecv Hbad.
  unfold call, ServicePack, bind, Recv, return_err, init; simpl.
  rewrite Hrecv.
  destruct (Data req) as [d |] eqn:Hdata.
  - simpl. split; [eexists; reflexivity | reflexivity].
  - destruct Hbad as [Hbad | Hbad]; [congruence |].
    rewrite Hbad. simpl. split; [eexists; reflexivity | reflexivity].
Qed.

(** C3: when the first message of a service-pack exchange carries
    payload bytes or has an empty repository UID, the call fails with an
    invalid-argument error and no subprocess is started. *)
Theorem ServicePack_first_message (s : smartHTTPService)
        (req : ServicePackRequest) :
  stream_recv 0 = RecvMsg req ->
  carries_payload req \/ RepoUid req = "" ->
  has_code InvalidArgument (fst (call (service_pack s))) /\
  no_subprocess (snd (call (service_pack s))).
Proof.
  intros Hrecv Hbad.
  destruct (@ServicePack_refused s req Hrecv) as [Hcode Htrace].
  - destruct Hbad as [Hp | Hu]; [left | now right].
    unfold carries_payload in Hp. destruct (Data req); [discriminate | easy].
  - split; [exact Hcode |]. now rewrite Htrace.
Qed.

(** C9: a first message whose payload field is present and empty is
    refused all the same, with an invalid-argument error and without a
    subprocess: the test is on the presence of the field. *)
Theorem ServicePack_empty_payload (s : smartHTTPService)
        (req : ServicePackRequest) :
  stream_recv 0 = RecvMsg req ->
  Data req = Some [] ->
  has_code InvalidArgument (fst (call (service_pack s))) /\
  no_subprocess (snd (call (service_pack s))).
Proof.
  intros Hrecv Hdata.
  destruct (@ServicePack_refused s req Hrecv) as [Hcode Htrace].
  - left. congruence.
  - split; [exact Hcode |]. now rewrite Htrace.
Qed.

(** What a run of [serviceRPC] returns and leaves in the trace. *)
Lemma serviceRPC_call (stdin : Reader) (req : ServicePackRequest)
      (dir : string) :
  let out := git_run (rpc_cmd req dir) (rpc_opts stdin req dir) in
  call (rpc stdin req dir) =
  (out_err out,
   EvRun (rpc_cmd req dir) (rpc_opts stdin req dir)
   :: match out_err out with
      | Some err =>
          if negb (Error err =? "signal: killed")
          then [EvLogErr (serviceRPC_log req dir err (out_stderr out))]
          else []
      | None => []
      end).
Proof.
  unfold call, serviceRPC, bind, Run, emit, ret, return_err, init; simpl.
  destruct (out_err _) as [err |]; [| reflexivity].
  destruct (negb _); reflexivity.
Qed.

(** The whole of an exchange whose first message is accepted. *)
Lemma ServicePack_trace (s : smartHTTPService) (req : ServicePackRequest) :
  stream_recv 0 = RecvMsg req ->
  Data req = None ->
  RepoUid req <> "" ->
  let dir := path_of s (RepoUid req) in
  let cmd := rpc_cmd req dir in
  let opts := rpc_opts (NewReader stream_recv) req dir in
  let out := git_run cmd opts in
  call (service_pack s) =
  (out_err out,
   EvRecv (RecvMsg req) :: EvRun cmd opts
   :: match out_err out with
      | Some err =>
          if negb (Error err =? "signal: killed")
          then [EvLogErr (serviceRPC_log req dir err (out_stderr out))]
          else []
      | None => []
      end).
Proof.
  intros Hrecv Hdata Huid dir cmd opts out.
  rewrite (ServicePack_accepted s req Hrecv Hdata Huid).
  cbv zeta. now rewrite serviceRPC_call.
Qed.

(** A subprocess in the trace of an exchange: the first message was
    accepted, and the command and its options are those of [serviceRPC]
    for that message and the directory of its repository. *)
Lemma ServicePack_run_event (s : smartHTTPService) (req : ServicePackRequest)
      (c : Command) (o : RunOpts) :
  stream_recv 0 = RecvMsg req ->
  In (EvRun c o) (snd (call (service_pack s))) ->
  Data req = None /\ RepoUid req <> "" /\
  c = rpc_cmd req (path_of s (RepoUid req)) /\
  o = rpc_opts (NewReader stream_recv) req (path_of s (RepoUid req)).
Proof.
  intros Hrecv Hin.
  destruct (Data req) as [d |] eqn:Hdata.
  - destruct (ServicePack_refused s req Hrecv) as [_ Htr];
      [left; congruence |].
    rewrite Htr in Hin. destruct Hin as [E | []]. discriminate.
  - destruct (String.eqb_spec (RepoUid req) "") as [Huid | Huid].
    + destruct (ServicePack_refused s req Hrecv) as [_ Htr];
        [now right |].
      rewrite Htr in Hin. destruct Hin as [E | []]. discriminate.
    + rewrite (ServicePack_trace s req Hrecv Hdata Huid) in Hin.
      cbn [snd] in Hin.
      destruct Hin as [E | [E | Hin]]; [discriminate | |].
      * injection E as <- <-. now repeat split.
      * destruct (out_err _) as [err |]; [| destruct Hin].
        destruct (negb _); [| destruct Hin].
        destruct Hin as [E | []]. discriminate.
Qed.

(** C8, as amended: in a service-pack exchange that ran the subprocess,
    the error of the subprocess is returned to the caller as it is,
    whatever it is.  An error whose message is [signal: killed], the
    message of a process ended by the kill signal, leaves no log line;
    every other error leaves exactly one, which names the service and the
    directory and carries the message of the error and the standard error
    of git; a run without error logs nothing.  So a process killed because
    the call was cancelled is not logged, no more than a process killed by
    anyone else, and a process that exits with an error status is. *)
Theorem ServicePack_subprocess_error (s : smartHTTPService)
        (req : ServicePackRequest) (c : Command) (o : RunOpts) :
  stream_recv 0 = RecvMsg req ->
  In (EvRun c o) (snd (call (service_pack s))) ->
  fst (call (service_pack s)) = out_err (git_run c o) /\
  filter is_log (snd (call (service_pack s))) =
  match out_err (git_run c o) with
  | Some err =>
      if Error err =? "signal: killed" then []
      else [EvLogErr ("Fail to serve RPC(" ++ Service req ++ ") in "
                      ++ Dir o ++ ": " ++ Error err ++ " - "
                      ++ out_stderr (git_run c o))]
  | None => []
  end /\
  (forall e : Ending,
      out_err (git_run c o) = Some (ending_error e) ->
      existsb is_log (snd (call (service_pack s))) =
      match e with
      | KilledOnCancel | KilledOtherwise => false
      | ExitStatus _ => true
      end).
Proof.
  intros Hrecv Hin.
  destruct (ServicePack_run_event s req c o Hrecv Hin)
    as (Hdata & Huid & -> & ->).
  rewrite (ServicePack_trace s req Hrecv Hdata Huid). cbn [fst snd].
  split; [reflexivity |]. split.
  - cbn [filter is_log].
    destruct (out_err _) as [err |]; [| reflexivity].
    destruct (Error err =? "signal: killed"); reflexivity.
  - intros e ->. destruct e; reflexivity.
Qed.

(** C7: when the git subprocess of a ref advertisement fails, the call
    returns an internal error whose message carries the message of the
    failure, and nothing is sent to the caller. *)
Theorem InfoRefs_subprocess_failure (s : smartHTTPService)
        (r : InfoRefsRequest) (err : error) :
  out_err (git_run (InfoRefs_cmd r) (info_opts s r)) = Some err ->
  fst (call (info_refs s r)) =
    Some (StatusError Internal ("InfoRefsUploadPack: cmd: " ++ Error err)) /\
  nothing_sent (snd (call (info_refs s r))).
Proof.
  intros Herr.
  unfold call, InfoRefs, bind, Run, emit, ret, on_err, return_err, init;
    simpl.
  rewrite Herr. simpl. split; reflexivity.
Qed.

(** A ref advertisement that returns no error ran git once, without
    error, and every send went through: the packet line, the flush
    marker, and the output of git when there is any. *)
Lemma InfoRefs_success_trace (s : smartHTTPService) (r : InfoRefsRequest) :
  fst (call (info_refs s r)) = None ->
  let out := git_run (InfoRefs_cmd r) (info_opts s r) in
  out_err out = None /\
  snd (call (info_refs s r)) =
  ([EvRun (InfoRefs_cmd r) (info_opts s r);
    EvSend (packetWrite ("# service=git-" ++ ir_Service r
                         ++ String "010" "")%string) None;
    EvSend (bytes_of "0000") None]
   ++ match out_stdout out with
      | [] => []
      | _ => [EvSend (out_stdout out) None]
      end)%list.
Proof.
  exec. destruct (out_err _) as [e |]; [discriminate |].
  exec. destruct (stream_send 0 _) as [e |]; [discriminate |].
  exec. destruct (stream_send 1 _) as [e |]; [discriminate |].
  exec. destruct (out_stdout _) as [| b l]; [intros _; now split |].
  exec. destruct (stream_send 2 _) as [e |]; [discriminate |].
  intros _. now split.
Qed.

(** C6: the bytes sent by a ref advertisement that completes without
    error are the packet line of [# service=git-<service>], the flush
    marker [0000] and the standard output of git, run once with
    [--stateless-rpc --advertise-refs] in the resolved directory of the
    repository. *)
Theorem InfoRefs_response (s : smartHTTPService) (r : InfoRefsRequest) :
  fst (call (info_refs s r)) = None ->
  let cmd := {| cmd_args := [ir_Service r; "--stateless-rpc";
                             "--advertise-refs"; "."];
                cmd_desc := None |} in
  let opts := info_opts s r in
  Dir opts = path_of s (ir_RepoUid r) /\
  filter is_run (snd (call (info_refs s r))) = [EvRun cmd opts] /\
  bytes_sent (snd (call (info_refs s r))) =
    (packetWrite ("# service=git-" ++ ir_Service r ++ String "010" "")%string
     ++ bytes_of "0000" ++ out_stdout (git_run cmd opts))%list.
Proof.
  intros Hok cmd opts.
  destruct (InfoRefs_success_trace s r Hok) as [_ Htr].
  rewrite Htr. fold opts. change (InfoRefs_cmd r) with cmd.
  unfold bytes_sent.
  split; [reflexivity |].
  destruct (out_stdout (git_run cmd opts)) as [| b l];
    cbn [filter is_run sent_bytes map List.concat app];
    (split; [reflexivity |]); now rewrite !app_nil_r.
Qed.

(* --------------------------------------------------------------- *)
(** **** The environment of the subprocess *)

Local Abbreviation rpc_environ := (serviceRPC_environ EnvRepoUID EnvPusherID).

(** The options of [serviceRPC] put the variables it builds after the
    environment of the host. *)
Lemma serviceRPC_opts_Env (stdin : Reader) (req : ServicePackRequest)
      (dir : string) :
  Env (rpc_opts stdin req dir) = (os_Environ ++ rpc_environ req)%list.
Proof. reflexivity. Qed.

(** The variables [serviceRPC] builds, by cases. *)
Lemma serviceRPC_environ_cases (req : ServicePackRequest) :
  rpc_environ req =
  ((if (Service req =? receivePack) && negb (PrincipalId req =? "")
    then [(EnvRepoUID ++ "=" ++ RepoUid req)%string;
          (EnvPusherID ++ "=" ++ PrincipalId req)%string]
    else [])
   ++ [("SSH_ORIGINAL_COMMAND" ++ "=" ++ Service req)%string]
   ++ (if negb (GitProtocol req =? "")
          && MatchString safeGitProtocolHeader (GitProtocol req)
       then [("GIT_PROTOCOL" ++ "=" ++ GitProtocol req)%string]
       else []))%list.
Proof.
  unfold serviceRPC_environ.
  destruct (negb (GitProtocol req =? "") && _);
    [rewrite <- app_assoc | rewrite app_nil_r]; reflexivity.
Qed.

Ltac env_lookup :=
  repeat first
    [ rewrite getenv_app
    | progress cbn [getenv]
    | rewrite entry_value_same
    | rewrite entry_value_other by (assumption || congruence) ].

(** The correlation variables in the list [serviceRPC] builds. *)
Lemma serviceRPC_environ_correlation (req : ServicePackRequest) :
  correlation_names EnvRepoUID EnvPusherID = true ->
  getenv EnvRepoUID (rpc_environ req) =
    (if (Service req =? receivePack) && negb (PrincipalId req =? "")
     then Some (RepoUid req) else None) /\
  getenv EnvPusherID (rpc_environ req) =
    (if (Service req =? receivePack) && negb (PrincipalId req =? "")
     then Some (PrincipalId req) else None).
Proof.
  intros Hnames.
  destruct (correlation_names_facts _ _ Hnames)
    as (Hr & Hp & Hrp & Hrs & Hps & Hrg & Hpg).
  assert (Hs : var_name "SSH_ORIGINAL_COMMAND" = true) by reflexivity.
  assert (Hg : var_name "GIT_PROTOCOL" = true) by reflexivity.
  rewrite serviceRPC_environ_cases.
  destruct (_ && negb _); destruct (negb _ && _);
    split; env_lookup; reflexivity.
Qed.

(** C4, as amended: in a service-pack exchange for [receive-pack] with a
    principal that is not empty, the environment of the subprocess gives the
    repository variable the repository UID of the request and the pusher
    variable its principal.  For any other service ([upload-pack] among
    them) or with an empty principal the call adds neither: the variables
    it lays over the environment of the host define neither, and the
    environment of the subprocess has for each of the two exactly what the
    host has, so neither is present when the host defines neither. *)
Theorem ServicePack_correlation (s : smartHTTPService)
        (req : ServicePackRequest) (c : Command) (o : RunOpts) :
  correlation_names EnvRepoUID EnvPusherID = true ->
  stream_recv 0 = RecvMsg req ->
  In (EvRun c o) (snd (call (service_pack s))) ->
  Env o = (os_Environ ++ rpc_environ req)%list /\
  (Service req = receivePack -> PrincipalId req <> "" ->
   getenv EnvRepoUID (Env o) = Some (RepoUid req) /\
   getenv EnvPusherID (Env o) = Some (PrincipalId req)) /\
  (Service req <> receivePack \/ PrincipalId req = "" ->
   (getenv EnvRepoUID (rpc_environ req) = None /\
    getenv EnvPusherID (rpc_environ req) = None) /\
   (getenv EnvRepoUID (Env o) = getenv EnvRepoUID os_Environ /\
    getenv EnvPusherID (Env o) = getenv EnvPusherID os_Environ) /\
   (getenv EnvRepoUID os_Environ = None ->
    getenv EnvPusherID os_Environ = None ->
    getenv EnvRepoUID (Env o) = None /\
    getenv EnvPusherID (Env o) = None)).
Proof.
  intros Hnames Hrecv Hin.
  destruct (ServicePack_run_event s req c o Hrecv Hin) as (_ & _ & _ & ->).
  rewrite serviceRPC_opts_Env.
  destruct (serviceRPC_environ_correlation req Hnames) as [Hrepo Hpush].
  split; [reflexivity |]. split.
  - intros Hsvc Hprin.
    apply String.eqb_eq in Hsvc. apply String.eqb_neq in Hprin.
    rewrite Hsvc, Hprin in Hrepo, Hpush. simpl in Hrepo, Hpush.
    rewrite !getenv_app, Hrepo, Hpush. now split.
  - intros Hno.
    assert (Hc : (Service req =? receivePack)
                 && negb (PrincipalId req =? "") = false).
    { destruct Hno as [Hsvc | Hprin].
      - apply String.eqb_neq in Hsvc. now rewrite Hsvc.
      - apply String.eqb_eq in Hprin. rewrite Hprin. apply andb_false_r. }
    rewrite Hc in Hrepo, Hpush.
    rewrite !getenv_app, Hrepo, Hpush.
    split; [now split |]. split; [now split |].
    intros Hr Hp. now split.
Qed.

(** C5, as amended: in a service-pack exchange the environment of the
    subprocess always has the service marker [SSH_ORIGINAL_COMMAND], and
    its value is the service of the request. *)
Theorem ServicePack_service_marker (s : smartHTTPService)
        (req : ServicePackRequest) (c : Command) (o : RunOpts) :
  stream_recv 0 = RecvMsg req ->
  In (EvRun c o) (snd (call (service_pack s))) ->
  has_service_marker (Env o) (Service req).
Proof.
  intros Hrecv Hin.
  destruct (ServicePack_run_event s req c o Hrecv Hin) as (_ & _ & _ & ->).
  unfold has_service_marker.
  rewrite serviceRPC_opts_Env, serviceRPC_environ_cases.
  destruct (negb _ && _); env_lookup; reflexivity.
Qed.

(** The protocol variable in a service-pack exchange: it is there exactly
    for a protocol string that is not empty and matches the pattern, and
    then its value is that string. *)
Lemma serviceRPC_protocol (req : ServicePackRequest) :
  correlation_names EnvRepoUID EnvPusherID = true ->
  getenv "GIT_PROTOCOL" (rpc_environ req) =
  if negb (GitProtocol req =? "")
     && MatchString safeGitProtocolHeader (GitProtocol req)
  then Some (GitProtocol req) else None.
Proof.
  intros Hnames.
  destruct (correlation_names_facts _ _ Hnames)
    as (Hr & Hp & Hrp & Hrs & Hps & Hrg & Hpg).
  assert (Hs : var_name "SSH_ORIGINAL_COMMAND" = true) by reflexivity.
  assert (Hg : var_name "GIT_PROTOCOL" = true) by reflexivity.
  rewrite serviceRPC_environ_cases.
  destruct (_ && negb _); destruct (negb _ && _); env_lookup; reflexivity.
Qed.

(** The protocol variable in a ref advertisement: it is there for every
    protocol string that is not empty; the pattern is not consulted. *)
Lemma InfoRefs_protocol (s : smartHTTPService) (r : InfoRefsRequest) :
  ir_GitProtocol r <> "" ->
  getenv "GIT_PROTOCOL" (Env (info_opts s r)) = Some (ir_GitProtocol r).
Proof.
  intros Hne. apply String.eqb_neq in Hne.
  unfold InfoRefs_opts, InfoRefs_environ; cbn [Env]. rewrite Hne.
  cbn [negb]. rewrite getenv_app, getenv_one.
  change ("GIT_PROTOCOL=" ++ ir_GitProtocol r)
    with ("GIT_PROTOCOL" ++ "=" ++ ir_GitProtocol r).
  now rewrite entry_value_same.
Qed.

(** What a ref advertisement adds to the environment of the host defines
    no service marker. *)
Lemma InfoRefs_no_marker (s : smartHTTPService) (r : InfoRefsRequest) :
  getenv "SSH_ORIGINAL_COMMAND" (Env (info_opts s r))
  = getenv "SSH_ORIGINAL_COMMAND" os_Environ.
Proof.
  unfold InfoRefs_opts, InfoRefs_environ; cbn [Env].
  destruct (negb _); rewrite !getenv_app; [| reflexivity].
  rewrite getenv_one. reflexivity.
Qed.

End ServiceProperties.

(* ----------------------------------------------------------------- *)
(** *** The protocol string *)

(** In a service-pack exchange the subprocess gets a protocol variable from
    the call exactly when the protocol string of the request is in the
    grammar [word=word(:word=word)*]; the value is then that string. *)
Lemma serviceRPC_protocol_grammar (repoVar pusherVar : string)
      (req : ServicePackRequest) :
  correlation_names repoVar pusherVar = true ->
  (protocol_pairs (GitProtocol req) ->
   getenv "GIT_PROTOCOL" (serviceRPC_environ repoVar pusherVar req)
   = Some (GitProtocol req)) /\
  (~ protocol_pairs (GitProtocol req) ->
   getenv "GIT_PROTOCOL" (serviceRPC_environ repoVar pusherVar req) = None).
Proof.
  intros Hnames. rewrite (serviceRPC_protocol _ _ req Hnames).
  destruct (MatchString safeGitProtocolHeader (GitProtocol req)) eqn:Hm.
  - apply safeGitProtocolHeader_spec in Hm. split; [| tauto].
    intros _. destruct (GitProtocol req =? "") eqn:E; [| reflexivity].
    apply String.eqb_eq in E. rewrite E in Hm.
    apply safeGitProtocolHeader_spec in Hm. discriminate.
  - rewrite andb_false_r. split; [| reflexivity].
    intros Hp. apply safeGitProtocolHeader_spec in Hp. congruence.
Qed.

(** C1 fails on the code: a ref advertisement whose protocol string is not
    in the allow-list ([version=2 x] has a space) still runs git with the
    protocol variable set to that string, while a service-pack exchange
    drops the same string. *)
Theorem InfoRefs_unchecked_protocol :
  MatchString safeGitProtocolHeader "version=2 x" = false /\
  map (getenv "GIT_PROTOCOL")
      (run_envs (snd (call (InfoRefs sample_suffix sample_host_env git_ok
                              send_ok sample_service unsafe_info_refs))))
  = [Some "version=2 x"] /\
  map (getenv "GIT_PROTOCOL")
      (run_envs (snd (call (ServicePack sample_suffix sample_repo_var
                              sample_pusher_var sample_git sample_host_env
                              git_ok (stream_of unsafe_fetch)
                              sample_service))))
  = [None].
Proof. repeat split; vm_compute; reflexivity. Qed.

(* ----------------------------------------------------------------- *)
(** *** The properties on the sample inputs *)

Lemma ServicePack_first_message_witness :
  let result :=
    call (ServicePack sample_suffix sample_repo_var sample_pusher_var
            sample_git sample_host_env git_ok (stream_of push_with_payload)
            sample_service) in
  has_code InvalidArgument (fst result) /\ no_subprocess (snd result).
Proof.
  apply (ServicePack_first_message sample_suffix sample_repo_var
           sample_pusher_var sample_git sample_host_env git_ok
           (stream_of push_with_payload) sample_service push_with_payload).
  - reflexivity.
  - left. exact I.
Defined.

Lemma ServicePack_empty_payload_witness :
  let result :=
    call (ServicePack sample_suffix sample_repo_var sample_pusher_var
            sample_git sample_host_env git_ok
            (stream_of push_with_empty_payload) sample_service) in
  has_code InvalidArgument (fst result) /\ no_subprocess (snd result).
Proof.
  apply (ServicePack_empty_payload sample_suffix sample_repo_var
           sample_pusher_var sample_git sample_host_env git_ok
           (stream_of push_with_empty_payload) sample_service
           push_with_empty_payload).
  - reflexivity.
  - reflexivity.
Defined.

(** A push whose git process is killed: the error comes back and nothing is
    logged.  A push whose git exits with status 128: the error comes back
    and the log has the line with the service, the directory, the message
    and the standard error of git. *)
Lemma ServicePack_subprocess_error_witness :
  (let result :=
     call (ServicePack sample_suffix sample_repo_var sample_pusher_var
             sample_git sample_host_env git_killed (stream_of sample_push)
             sample_service) in
   fst result = Some (PlainError "signal: killed") /\
   filter is_log (snd result) = []) /\
  (let result :=
     call (ServicePack sample_suffix sample_repo_var sample_pusher_var
             sample_git sample_host_env git_fails (stream_of sample_push)
             sample_service) in
   fst result = Some (PlainError "exit status 128") /\
   filter is_log (snd result) =
   [EvLogErr ("Fail to serve RPC(receive-pack) in /data/repos/r1.git: "
              ++ "exit status 128 - fatal: not a git repository")]).
Proof.
  split.
  - destruct (ServicePack_subprocess_error sample_suffix sample_repo_var
                sample_pusher_var sample_git sample_host_env git_killed
                (stream_of sample_push) sample_service sample_push
                sample_push_cmd sample_push_opts)
      as (Hret & Hlog & _).
    + reflexivity.
    + right. left. reflexivity.
    + split; [exact Hret | exact Hlog].
  - destruct (ServicePack_subprocess_error sample_suffix sample_repo_var
                sample_pusher_var sample_git sample_host_env git_fails
                (stream_of sample_push) sample_service sample_push
                sample_push_cmd sample_push_opts)
      as (Hret & Hlog & _).
    + reflexivity.
    + right. left. reflexivity.
    + split; [exact Hret | exact Hlog].
Defined.

(** C8, as stated, fails for a git process that gets the kill signal while
    the call is not cancelled: its error has the same message as after a
    kill on cancellation, so it is returned but not logged. *)
Lemma kill_without_cancellation_not_logged :
  ~ logged_unless_cancelled KilledOtherwise
      (call (ServicePack sample_suffix sample_repo_var sample_pusher_var
               sample_git sample_host_env
               (git_ends KilledOtherwise "") (stream_of sample_push)
               sample_service)).
Proof.
  intros [_ H]. vm_compute in H. discriminate.
Qed.

Lemma InfoRefs_subprocess_failure_witness :
  let result :=
    call (InfoRefs sample_suffix sample_host_env git_fails send_ok
            sample_service sample_info_refs) in
  fst result =
    Some (StatusError Internal "InfoRefsUploadPack: cmd: exit status 128") /\
  nothing_sent (snd result).
Proof.
  apply (InfoRefs_subprocess_failure sample_suffix sample_host_env git_fails
           send_ok sample_service sample_info_refs
           (PlainError "exit status 128")).
  reflexivity.
Defined.

Lemma InfoRefs_response_witness :
  bytes_sent
    (snd (call (InfoRefs sample_suffix sample_host_env git_ok send_ok
                  sample_service sample_info_refs)))
  = bytes_of ("001e# service=git-upload-pack" ++ String "010" "00000000").
Proof.
  apply (InfoRefs_response sample_suffix sample_host_env git_ok send_ok
           sample_service sample_info_refs).
  vm_compute. reflexivity.
Defined.

(** The sample push gets both correlation variables; the sample fetch, on
    a host that defines neither, gets neither. *)
Lemma ServicePack_correlation_witness :
  (getenv sample_repo_var (Env sample_push_opts) = Some "r1" /\
   getenv sample_pusher_var (Env sample_push_opts) = Some "p1") /\
  (let o := serviceRPC_opts sample_repo_var sample_pusher_var
              sample_host_env (NewReader (stream_of sample_fetch))
              sample_fetch "/data/repos/r1.git" in
   getenv sample_repo_var (Env o) = None /\
   getenv sample_pusher_var (Env o) = None).
Proof.
  split.
  - apply (ServicePack_correlation sample_suffix sample_repo_var
             sample_pusher_var sample_git sample_host_env git_ok
             (stream_of sample_push) sample_service sample_push
             sample_push_cmd sample_push_opts).
    + reflexivity.
    + reflexivity.
    + right. left. reflexivity.
    + reflexivity.
    + discriminate.
  - apply (ServicePack_correlation sample_suffix sample_repo_var
             sample_pusher_var sample_git sample_host_env git_ok
             (stream_of sample_fetch) sample_service sample_fetch
             (serviceRPC_cmd sample_git sample_fetch "/data/repos/r1.git")
             (serviceRPC_opts sample_repo_var sample_pusher_var
                sample_host_env (NewReader (stream_of sample_fetch))
                sample_fetch "/data/repos/r1.git")).
    + reflexivity.
    + reflexivity.
    + right. left. reflexivity.
    + left. discriminate.
    + reflexivity.
    + reflexivity.
Defined.

(** C4, as stated, fails on a host whose own environment defines the two
    variables: the subprocess of a fetch ([upload-pack], no principal) has
    both, with the values of the host. *)
Lemma upload_pack_inherits_correlation :
  ~ (forall c o,
        In (EvRun c o)
           (snd (call (ServicePack sample_suffix sample_repo_var
                         sample_pusher_var sample_git host_with_correlation
                         git_ok (stream_of sample_fetch) sample_service))) ->
        getenv sample_repo_var (Env o) = None /\
        getenv sample_pusher_var (Env o) = None).
Proof.
  intros H.
  specialize (H (serviceRPC_cmd sample_git sample_fetch "/data/repos/r1.git")
                (serviceRPC_opts sample_repo_var sample_pusher_var
                   host_with_correlation (NewReader (stream_of sample_fetch))
                   sample_fetch "/data/repos/r1.git")
                (or_intror (or_introl eq_refl))).
  destruct H as [H _]. vm_compute in H. discriminate.
Qed.

Lemma ServicePack_service_marker_witness :
  has_service_marker (Env sample_push_opts) "receive-pack".
Proof.
  apply (ServicePack_service_marker sample_suffix sample_repo_var
           sample_pusher_var sample_git sample_host_env git_ok
           (stream_of sample_push) sample_service sample_push
           sample_push_cmd sample_push_opts).
  - reflexivity.
  - right. left. reflexivity.
Defined.

(** C5, as stated, fails for a ref advertisement: git is run, and the
    environment it gets has no service marker. *)
Lemma InfoRefs_without_service_marker :
  ~ (forall c o,
        In (EvRun c o)
           (snd (call (InfoRefs sample_suffix sample_host_env git_ok send_ok
                         sample_service sample_info_refs))) ->
        has_service_marker (Env o) (ir_Service sample_info_refs)).
Proof.
  intros H.
  specialize (H (InfoRefs_cmd sample_info_refs)
                (InfoRefs_opts sample_suffix sample_host_env sample_service
                               sample_info_refs)
                (or_introl eq_refl)).
  vm_compute in H. discriminate.
Qed.

(* ================================================================= *)
(** ** Part III.  Further properties of the code *)

(* ----------------------------------------------------------------- *)
(** *** More on the packet-line encoder *)

Lemma bytes_of_inj (s1 s2 : string) : bytes_of s1 = bytes_of s2 -> s1 = s2.
Proof.
  unfold bytes_of. intros H.
  rewrite <- (string_of_list_byte_of_string s1),
          <- (string_of_list_byte_of_string s2).
  now rewrite H.
Qed.

Lemma append_inv_length (a b c d : string) :
  a ++ c = b ++ d -> String.length a = String.length b -> a = b /\ c = d.
Proof.
  revert b. induction a as [| x a IH]; intros [| y b] H Hl;
    try discriminate; simpl in *.
  - now split.
  - injection H as -> H. injection Hl as Hl.
    destruct (IH b H Hl) as [-> ->]. now split.
Qed.

(** A number that is at least [16^k] has more than [k] digits. *)
Lemma formatBits16_length_ge (k : nat) : forall u,
  (16 ^ N.of_nat k <= u)%N -> S k <= String.length (formatBits16 u "").
Proof.
  induction k as [| k IH]; intros u Hu.
  - apply formatBits16_length_pos.
  - rewrite formatBits16_step.
    replace (N.of_nat (S k)) with (N.succ (N.of_nat k)) in Hu by lia.
    rewrite N.pow_succ_r' in Hu.
    assert (Hpow : (1 <= 16 ^ N.of_nat k)%N).
    { pose proof (N.pow_nonzero 16 (N.of_nat k)). lia. }
    destruct (u <? 16)%N eqn:E; [apply N.ltb_lt in E; lia |].
    rewrite formatBits16_acc, length_append. simpl.
    assert (H : (16 ^ N.of_nat k <= u / 16)%N).
    { apply N.div_le_lower_bound; lia. }
    specialize (IH _ H). lia.
Qed.

(** A larger number has at least as many digits. *)
Lemma formatBits16_length_mono (u v : N) :
  (u <= v)%N ->
  String.length (formatBits16 u "") <= String.length (formatBits16 v "").
Proof.
  intros Huv.
  remember (String.length (formatBits16 u "")) as n eqn:En.
  destruct n as [| [| n]].
  - lia.
  - apply formatBits16_length_pos.
  - apply formatBits16_length_ge.
    destruct (N.lt_ge_cases u (16 ^ N.of_nat (S n))) as [Hlt | Hge]; [| lia].
    apply formatBits16_length_le in Hlt. lia.
Qed.

(** The width of the header of a line, and the header itself. *)
Lemma packetWrite_width (str : string) :
  (len str + 4 < 2 ^ 63)%Z ->
  exists hdr,
    packetWrite str = bytes_of (hdr ++ str) /\
    Z.of_N (hex_value hdr) = (len str + 4)%Z /\
    String.length hdr =
    4 * ((String.length (formatBits16 (Z.to_N (len str + 4)) "") + 3) / 4).
Proof.
  intros Hfit.
  destruct (packetWrite_header str Hfit)
    as (hdr & Heq & Hmod & Hlen & _ & Hval).
  assert (Hpos : (0 <= len str + 4)%Z) by (unfold len; lia).
  exists hdr. rewrite bytes_of_append. split; [exact Heq |].
  split; [exact Hval |].
  rewrite FormatInt16_nonneg in Hlen by assumption.
  set (f := String.length (formatBits16 (Z.to_N (len str + 4)) "")) in *.
  assert (Hge : f <= String.length hdr).
  { unfold packetWrite in Heq.
    rewrite int64_small, FormatInt16_nonneg in Heq by lia.
    apply (f_equal (@List.length byte)) in Heq.
    rewrite length_app, !bytes_of_length, length_append in Heq.
    destruct (negb _) in Heq.
    - rewrite length_append in Heq. fold f in Heq. lia.
    - fold f in Heq. lia. }
  pose proof (Nat.div_mod_eq (String.length hdr) 4) as Hh.
  pose proof (Nat.div_mod_eq (f + 3) 4) as Hf.
  pose proof (Nat.mod_upper_bound (f + 3) 4 ltac:(lia)) as Hfm.
  rewrite Hmod in Hh. nia.
Qed.

(** X1: the encoder is injective: two lines with the same packet are the
    same line. *)
Theorem packetWrite_injective (s1 s2 : string) :
  (len s1 + 4 < 2 ^ 63)%Z -> (len s2 + 4 < 2 ^ 63)%Z ->
  packetWrite s1 = packetWrite s2 -> s1 = s2.
Proof.
  intros H1 H2 Heq.
  destruct (packetWrite_width s1 H1) as (h1 & E1 & V1 & W1).
  destruct (packetWrite_width s2 H2) as (h2 & E2 & V2 & W2).
  rewrite E1, E2 in Heq. apply bytes_of_inj in Heq.
  assert (Hlen : String.length h1 + String.length s1
                 = String.length h2 + String.length s2).
  { apply (f_equal String.length) in Heq. now rewrite !length_append in Heq. }
  assert (Hmono : forall a b, (len a <= len b)%Z ->
            String.length (formatBits16 (Z.to_N (len a + 4)) "")
            <= String.length (formatBits16 (Z.to_N (len b + 4)) "")).
  { intros a b Hab. apply formatBits16_length_mono. unfold len in *. lia. }
  assert (Hsame : String.length s1 = String.length s2).
  { destruct (Nat.lt_trichotomy (String.length s1) (String.length s2))
      as [Hlt | [He | Hgt]]; [| exact He |].
    - pose proof (Hmono s1 s2 ltac:(unfold len; lia)) as Hm.
      assert (String.length h1 <= String.length h2).
      { rewrite W1, W2. apply Nat.mul_le_mono_l.
        apply Nat.Div0.div_le_mono. lia. }
      lia.
    - pose proof (Hmono s2 s1 ltac:(unfold len; lia)) as Hm.
      assert (String.length h2 <= String.length h1).
      { rewrite W1, W2. apply Nat.mul_le_mono_l.
        apply Nat.Div0.div_le_mono. lia. }
      lia. }
  apply append_inv_length in Heq; [tauto | lia].
Qed.

Lemma packetWrite_injective_witness : "want" = "want".
Proof.
  apply (packetWrite_injective "want" "want"); reflexivity.
Defined.

(** X2: a packet is never the flush marker [0000], and for a line of at
    most 65531 bytes the packet is four bytes longer than the line. *)
Theorem packetWrite_not_flush (str : string) :
  (len str + 4 < 2 ^ 63)%Z ->
  packetWrite str <> bytes_of "0000" /\
  ((len str + 4 < 65536)%Z ->
   List.length (packetWrite str) = String.length str + 4).
Proof.
  intros Hfit. split.
  - intros Heq.
    destruct (packetWrite_width str Hfit) as (hdr & E & V & W).
    rewrite E in Heq. apply bytes_of_inj in Heq.
    assert (Hl : String.length hdr + String.length str = 4).
    { apply (f_equal String.length) in Heq.
      now rewrite length_append in Heq. }
    pose proof (formatBits16_length_pos (Z.to_N (len str + 4))) as Hpos.
    assert (Hw : 4 <= String.length hdr).
    { rewrite W.
      assert (1 <= (String.length (formatBits16 (Z.to_N (len str + 4)) "") + 3) / 4).
      { apply Nat.div_le_lower_bound; lia. }
      lia. }
    assert (Hs : str = "") by (destruct str; [reflexivity | simpl in Hl; lia]).
    subst str. rewrite append_nil_r in Heq. subst hdr.
    vm_compute in V. discriminate.
  - intros Hsmall.
    destruct (packetWrite_width str Hfit) as (hdr & E & _ & W).
    pose proof (formatBits16_length_pos (Z.to_N (len str + 4))) as Hpos.
    pose proof (@formatBits16_length_le 3 (Z.to_N (len str + 4))) as Hle.
    change (16 ^ N.of_nat 4)%N with 65536%N in Hle.
    assert (Hlen : (0 <= len str)%Z) by (unfold len; lia).
    specialize (Hle ltac:(lia)).
    set (f := String.length (formatBits16 (Z.to_N (len str + 4)) "")) in *.
    assert (Hq : (f + 3) / 4 = 1).
    { symmetry. apply Nat.div_unique with (r := f - 1); lia. }
    rewrite E, bytes_of_length, length_append, W, Hq. lia.
Qed.

Lemma packetWrite_not_flush_witness :
  packetWrite "" <> bytes_of "0000" /\
  ((len "" + 4 < 65536)%Z -> List.length (packetWrite "") = 4).
Proof. apply (packetWrite_not_flush ""). reflexivity. Defined.

(* ----------------------------------------------------------------- *)
(** *** More on the allow-list pattern *)

Lemma word_protocol_chars (w : string) :
  string_forallb alnum w = true -> string_forallb protocol_char w = true.
Proof.
  unfold protocol_char.
  induction w as [| c w IH]; simpl; [reflexivity |].
  intros H. apply andb_prop in H as [Hc Hw].
  now rewrite Hc, (IH Hw).
Qed.

(** X3: a protocol string that the pattern accepts is not empty and holds
    nothing but letters, digits, [=] and [:]; no space, quote, line break
    or zero byte gets through. *)
Theorem safeGitProtocolHeader_chars (s : string) :
  MatchString safeGitProtocolHeader s = true ->
  s <> "" /\ string_forallb protocol_char s = true.
Proof.
  intros H. apply safeGitProtocolHeader_spec in H.
  induction H as [k v [Hk Hka] [Hv Hva] | k v rest [Hk Hka] [Hv Hva] _ [_ IH]].
  - split; [destruct k; [congruence | discriminate] |].
    rewrite !string_forallb_append.
    now rewrite (word_protocol_chars k Hka), (word_protocol_chars v Hva).
  - split; [destruct k; [congruence | discriminate] |].
    rewrite !string_forallb_append.
    now rewrite (word_protocol_chars k Hka), (word_protocol_chars v Hva), IH.
Qed.

Lemma safeGitProtocolHeader_chars_witness :
  "version=2:a=b" <> "" /\
  string_forallb protocol_char "version=2:a=b" = true.
Proof.
  apply (safeGitProtocolHeader_chars "version=2:a=b"). reflexivity.
Defined.

(** The pairs of a protocol string, written out. *)
Lemma protocol_pairs_list (s : string) :
  protocol_pairs s <->
  exists pairs : list (string * string),
    pairs <> [] /\
    Forall (fun kv => is_word (fst kv) /\ is_word (snd kv)) pairs /\
    s = StringsJoin (map (fun kv => fst kv ++ "=" ++ snd kv) pairs) ":".
Proof.
  split.
  - intros H. induction H as [k v Hk Hv | k v rest Hk Hv _ IH].
    + exists [(k, v)]. split; [discriminate |]. split; [| reflexivity].
      constructor; [now split | constructor].
    + destruct IH as (pairs & Hne & Hall & ->).
      exists ((k, v) :: pairs). split; [discriminate |].
      split; [constructor; [now split | assumption] |].
      destruct pairs as [| p pairs]; [congruence |].
      cbn [map StringsJoin fst snd]. now rewrite !append_assoc.
  - intros (pairs & Hne & Hall & ->).
    induction Hall as [| [k v] pairs [Hk Hv] Hall IH]; [congruence |].
    destruct pairs as [| p pairs].
    + now constructor.
    + change (StringsJoin (map (fun kv => fst kv ++ "=" ++ snd kv)
                               ((k, v) :: p :: pairs)) ":")
        with ((k ++ "=" ++ v) ++ ":" ++
              StringsJoin (map (fun kv => fst kv ++ "=" ++ snd kv)
                               (p :: pairs)) ":").
      rewrite !append_assoc.
      apply pairs_more; [assumption | assumption |].
      apply IH. discriminate.
Qed.

(** X4: the pattern accepts exactly the strings [k1=v1:k2=v2:...] made of
    one or more pairs of non-empty words of letters and digits. *)
Theorem safeGitProtocolHeader_pairs (s : string) :
  MatchString safeGitProtocolHeader s = true <->
  exists pairs : list (string * string),
    pairs <> [] /\
    Forall (fun kv => is_word (fst kv) /\ is_word (snd kv)) pairs /\
    s = StringsJoin (map (fun kv => fst kv ++ "=" ++ snd kv) pairs) ":".
Proof.
  rewrite MatchString_lang, safeGitProtocolHeader_lang.
  apply protocol_pairs_list.
Qed.

(* ----------------------------------------------------------------- *)
(** *** More on the two operations *)

Ltac env_find :=
  repeat first
    [ rewrite getenv_app
    | progress cbn [getenv]
    | rewrite entry_value_same
    | rewrite entry_value_other by (assumption || congruence) ].

Section ServiceMore.

Variable gitRepoSuffix : string.
Variable EnvRepoUID : string.
Variable EnvPusherID : string.
Variable GitExecutable : string.
Variable os_Environ : list string.
Variable git_run : Command -> RunOpts -> Outcome.
Variable stream_recv : nat -> Received.
Variable stream_send : nat -> bytes -> option error.

Local Arguments packetWrite : simpl never.
Local Arguments bytes_of : simpl never.
Local Arguments getFullPathForRepo : simpl never.
Local Arguments InfoRefs_environ : simpl never.
Local Arguments serviceRPC_environ : simpl never.
Local Arguments String.eqb : simpl never.

Local Abbreviation path_of := (getFullPathForRepo gitRepoSuffix).
Local Abbreviation rpc_cmd := (serviceRPC_cmd GitExecutable).
Local Abbreviation rpc_opts :=
  (serviceRPC_opts EnvRepoUID EnvPusherID os_Environ).
Local Abbreviation rpc_environ := (serviceRPC_environ EnvRepoUID EnvPusherID).
Local Abbreviation service_pack :=
  (ServicePack gitRepoSuffix EnvRepoUID EnvPusherID GitExecutable
               os_Environ git_run stream_recv).
Local Abbreviation info_refs :=
  (InfoRefs gitRepoSuffix os_Environ git_run stream_send).
Local Abbreviation info_opts := (InfoRefs_opts gitRepoSuffix os_Environ).

(** X5: when the first receive of a service-pack exchange fails, the error
    of the transport is returned as it is, and the call does nothing else:
    no subprocess, no log line. *)
Theorem ServicePack_receive_error (s : smartHTTPService) (e : error) :
  stream_recv 0 = RecvErr e ->
  call (service_pack s) = (Some e, [EvRecv (RecvErr e)]).
Proof.
  intros Hrecv.
  unfold call, ServicePack, bind, Recv, return_err, init; simpl.
  now rewrite Hrecv.
Qed.

(** X6: a service-pack exchange runs git exactly when its first message has
    no payload field and a repository UID that is not empty; it then runs
    it once, for the service of the message in stateless-rpc mode, with the
    directory of the repository as last argument and as working directory,
    bound to the context of the caller. *)
Theorem ServicePack_runs_git (s : smartHTTPService)
        (req : ServicePackRequest) :
  stream_recv 0 = RecvMsg req ->
  (existsb is_run (snd (call (service_pack s))) = true <->
   Data req = None /\ RepoUid req <> "") /\
  (Data req = None -> RepoUid req <> "" ->
   exists c o,
     filter is_run (snd (call (service_pack s))) = [EvRun c o] /\
     cmd_args c = [Service req; "--stateless-rpc"; path_of s (RepoUid req)] /\
     Dir o = path_of s (RepoUid req) /\
     UseContextTimeout o = true /\
     Stdin o = Some (NewReader stream_recv)).
Proof.
  intros Hrecv.
  assert (Hrun : Data req = None -> RepoUid req <> "" ->
            filter is_run (snd (call (service_pack s))) =
            [EvRun (rpc_cmd req (path_of s (RepoUid req)))
                   (rpc_opts (NewReader stream_recv) req
                             (path_of s (RepoUid req)))]).
  { intros Hdata Huid.
    rewrite (ServicePack_trace gitRepoSuffix EnvRepoUID EnvPusherID
               GitExecutable os_Environ git_run stream_recv
               s req Hrecv Hdata Huid).
    cbn [snd filter is_run].
    destruct (out_err _) as [err |]; [| reflexivity].
    destruct (negb _); reflexivity. }
  split.
  - split.
    + intros Hex. apply existsb_exists in Hex as (ev & Hin & Hev).
      destruct ev as [| c o | |]; try discriminate.
      destruct (ServicePack_run_event gitRepoSuffix EnvRepoUID EnvPusherID
                  GitExecutable os_Environ git_run stream_recv
                  s req c o Hrecv Hin) as (Hd & Hu & _).
      now split.
    + intros [Hdata Huid].
      assert (Hin : In (EvRun (rpc_cmd req (path_of s (RepoUid req)))
                              (rpc_opts (NewReader stream_recv) req
                                        (path_of s (RepoUid req))))
                       (filter is_run (snd (call (service_pack s)))))
        by (rewrite (Hrun Hdata Huid); now left).
      apply filter_In in Hin as [Hin _].
      apply existsb_exists. eexists. split; [exact Hin | reflexivity].
  - intros Hdata Huid. do 2 eexists.
    split; [exact (Hrun Hdata Huid) |]. now repeat split.
Qed.

(** X7: the [Env] option that a service-pack exchange passes to [cmd.Run]
    is the environment of the host with the variables of the call laid
    over it: for every variable other than the four the call may write,
    the option has what the host has for it.  (The variables that the git
    module adds to the option when it starts the process are not part of
    it.) *)
Theorem ServicePack_host_environment (s : smartHTTPService)
        (req : ServicePackRequest) (c : Command) (o : RunOpts) (k : string) :
  stream_recv 0 = RecvMsg req ->
  In (EvRun c o) (snd (call (service_pack s))) ->
  var_name EnvRepoUID = true -> var_name EnvPusherID = true ->
  var_name k = true ->
  k <> EnvRepoUID -> k <> EnvPusherID ->
  k <> "SSH_ORIGINAL_COMMAND" -> k <> "GIT_PROTOCOL" ->
  getenv k (Env o) = getenv k os_Environ.
Proof.
  intros Hrecv Hin Hr Hp Hk H1 H2 H3 H4.
  destruct (ServicePack_run_event gitRepoSuffix EnvRepoUID EnvPusherID
              GitExecutable os_Environ git_run stream_recv
              s req c o Hrecv Hin) as (_ & _ & _ & ->).
  assert (Hs : var_name "SSH_ORIGINAL_COMMAND" = true) by reflexivity.
  assert (Hg : var_name "GIT_PROTOCOL" = true) by reflexivity.
  rewrite serviceRPC_opts_Env, serviceRPC_environ_cases.
  destruct (_ && negb _); destruct (negb _ && _); env_find; reflexivity.
Qed.

(** X8: in a service-pack exchange the subprocess gets a protocol variable
    from the call exactly when the protocol string of the first message is
    in the grammar [word=word(:word=word)*], with that string as value; for
    any other string it sees what the host has for the variable. *)
Theorem ServicePack_protocol (s : smartHTTPService)
        (req : ServicePackRequest) (c : Command) (o : RunOpts) :
  correlation_names EnvRepoUID EnvPusherID = true ->
  stream_recv 0 = RecvMsg req ->
  In (EvRun c o) (snd (call (service_pack s))) ->
  (protocol_pairs (GitProtocol req) ->
   getenv "GIT_PROTOCOL" (Env o) = Some (GitProtocol req)) /\
  (~ protocol_pairs (GitProtocol req) ->
   getenv "GIT_PROTOCOL" (Env o) = getenv "GIT_PROTOCOL" os_Environ).
Proof.
  intros Hnames Hrecv Hin.
  destruct (ServicePack_run_event gitRepoSuffix EnvRepoUID EnvPusherID
              GitExecutable os_Environ git_run stream_recv
              s req c o Hrecv Hin) as (_ & _ & _ & ->).
  rewrite serviceRPC_opts_Env, getenv_app.
  destruct (serviceRPC_protocol_grammar EnvRepoUID EnvPusherID req Hnames)
    as [Hyes Hno].
  split; intros Hp.
  - now rewrite (Hyes Hp).
  - now rewrite (Hno Hp).
Qed.

(** Every way a ref advertisement can go: git fails; or one of the sends
    fails; or all goes through, with or without output of git. *)
Ltac info_refs_cases :=
  exec; destruct (out_err _) as [?e |];
  [| exec; destruct (stream_send 0 _) as [?e |];
     [| exec; destruct (stream_send 1 _) as [?e |];
        [| exec; destruct (out_stdout _) as [| ?b ?l];
           [| exec; destruct (stream_send 2 _) as [?e |] ] ] ] ].

(** X9: a ref advertisement runs git exactly once whatever the request
    holds, neither receives nor logs, and every error it returns is a
    status error with code Internal. *)
Theorem InfoRefs_runs_once (s : smartHTTPService) (r : InfoRefsRequest) :
  filter is_run (snd (call (info_refs s r)))
  = [EvRun (InfoRefs_cmd r) (info_opts s r)] /\
  filter (fun ev => negb (is_run ev || is_send ev)) (snd (call (info_refs s r)))
  = [] /\
  (fst (call (info_refs s r)) = None \/
   has_code Internal (fst (call (info_refs s r)))).
Proof.
  unfold has_code, Errorf. info_refs_cases; cbn [filter is_run is_send negb orb];
    (split; [reflexivity |]); (split; [reflexivity |]);
    solve [now left | right; eexists; reflexivity].
Qed.

(** X10: whatever happens, the bytes that reach the caller of a ref
    advertisement are the first chunks of the response (packet line, flush
    marker, output of git), and once a send has failed nothing more is
    sent. *)
Theorem InfoRefs_sends_prefix (s : smartHTTPService) (r : InfoRefsRequest) :
  let out := git_run (InfoRefs_cmd r) (info_opts s r) in
  let chunks :=
    [packetWrite ("# service=git-" ++ ir_Service r ++ String "010" "")%string;
     bytes_of "0000"; out_stdout out] in
  (exists n, bytes_sent (snd (call (info_refs s r)))
             = List.concat (firstn n chunks)) /\
  (forall ev, In ev (removelast (snd (call (info_refs s r)))) ->
              send_failed ev = false).
Proof.
  cbv zeta. unfold bytes_sent. split.
  - info_refs_cases.
    + exists 0. reflexivity.
    + exists 0. reflexivity.
    + exists 1. reflexivity.
    + exists 2. reflexivity.
    + exists 2. reflexivity.
    + exists 3. reflexivity.
  - info_refs_cases; cbn [removelast]; intros ev Hin;
      repeat (destruct Hin as [<- | Hin]; [reflexivity |]); destruct Hin.
Qed.

(** X11: when git succeeds and the transport accepts every send, the ref
    advertisement returns no error and the caller has the whole
    response. *)
Theorem InfoRefs_completes (s : smartHTTPService) (r : InfoRefsRequest) :
  let out := git_run (InfoRefs_cmd r) (info_opts s r) in
  out_err out = None ->
  (forall n p, stream_send n p = None) ->
  fst (call (info_refs s r)) = None /\
  bytes_sent (snd (call (info_refs s r))) =
  (packetWrite ("# service=git-" ++ ir_Service r ++ String "010" "")%string
   ++ bytes_of "0000" ++ out_stdout out)%list.
Proof.
  intros out Hgit Hsend. subst out. unfold bytes_sent.
  exec. rewrite Hgit. exec. rewrite !Hsend. exec.
  destruct (out_stdout _) as [| b l].
  - split; [reflexivity |]. cbn [map sent_bytes List.concat].
    now rewrite !app_nil_r.
  - exec. rewrite Hsend. split; [reflexivity |].
    cbn [map sent_bytes List.concat]. now rewrite !app_nil_r.
Qed.

(** X12: the [Env] option that a ref advertisement passes to [cmd.Run] is
    the environment of the host, with the protocol variable after it when
    the protocol string is not empty: for every variable other than the
    protocol variable the option has what the host has for it, and with an
    empty protocol string the option is the environment of the host, entry
    for entry.  (The variables that the git module adds to the option when
    it starts the process are not part of it.) *)
Theorem InfoRefs_host_environment (s : smartHTTPService) (r : InfoRefsRequest)
        (c : Command) (o : RunOpts) :
  In (EvRun c o) (snd (call (info_refs s r))) ->
  (forall k, var_name k = true -> k <> "GIT_PROTOCOL" ->
             getenv k (Env o) = getenv k os_Environ) /\
  (ir_GitProtocol r = "" -> Env o = os_Environ).
Proof.
  intros Hin.
  assert (Ho : o = info_opts s r).
  { assert (Hf : In (EvRun c o) (filter is_run (snd (call (info_refs s r)))))
      by (apply filter_In; now split).
    revert Hf. info_refs_cases; cbn [filter is_run];
      intros [E | []]; now injection E. }
  subst o. unfold InfoRefs_opts, InfoRefs_environ; cbn [Env]. split.
  - intros k Hk Hne.
    assert (Hg : var_name "GIT_PROTOCOL" = true) by reflexivity.
    destruct (negb _); rewrite ?app_nil_r; [| reflexivity].
    change ("GIT_PROTOCOL=" ++ ir_GitProtocol r)
      with ("GIT_PROTOCOL" ++ "=" ++ ir_GitProtocol r).
    env_find. reflexivity.
  - intros ->. cbn. now rewrite app_nil_r.
Qed.

End ServiceMore.

(* ----------------------------------------------------------------- *)
(** *** More on the path of a repository *)

(** Text without separator after a path goes to its last element. *)
Lemma Split_append (sep : ascii) (a b : string) :
  no_sep sep b = true ->
  Split sep (a ++ b)
  = (removelast (Split sep a) ++ [(last (Split sep a) "" ++ b)%string])%list.
Proof.
  intros Hb. induction a as [| c a IH].
  - simpl. now apply Split_last.
  - cbn [append Split]. rewrite IH.
    pose proof (Split_not_nil sep a) as Hne.
    destruct (Split sep a) as [| w ws]; [congruence |].
    destruct (Ascii.eqb c sep).
    + reflexivity.
    + destruct ws as [| w2 ws]; reflexivity.
Qed.

(** The elements of a joined path that goes on after a separator. *)
Lemma Split_Join_prefix (sep : ascii) (dirs : list string) (rest : string) :
  dirs <> [] ->
  Forall (fun e => no_sep sep e = true) dirs ->
  Split sep (StringsJoin dirs (String sep "") ++ String sep rest)
  = (dirs ++ Split sep rest)%list.
Proof.
  intros Hne Hall. induction Hall as [| e l He Hl IH]; [congruence |].
  destruct l as [| e' l'].
  - simpl. now apply Split_element.
  - change (StringsJoin (e :: e' :: l') (String sep ""))
      with (e ++ String sep (StringsJoin (e' :: l') (String sep ""))).
    rewrite append_assoc.
    change (String sep (StringsJoin (e' :: l') (String sep "")) ++ String sep rest)
      with (String sep (StringsJoin (e' :: l') (String sep "") ++ String sep rest)).
    rewrite Split_element by assumption.
    rewrite IH by discriminate. reflexivity.
Qed.

(** Without [..] the cleaning keeps the elements that are neither empty nor
    [.], in order. *)
Lemma clean_kept (rooted : bool) (elems : list string) : forall out,
  forallb (fun e => negb (e =? "..")) elems = true ->
  fold_left (clean_step rooted) elems out
  = (rev (filter kept elems) ++ out)%list.
Proof.
  induction elems as [| e elems IH]; intros out Hall; [reflexivity |].
  cbn [forallb] in Hall. apply andb_prop in Hall as [He Hall].
  apply negb_true_iff in He.
  cbn [fold_left filter]. rewrite (IH _ Hall).
  unfold clean_step, kept. rewrite He.
  destruct (e =? ""); [reflexivity |].
  destruct (e =? "."); [reflexivity |].
  cbn [negb andb rev orb]. now rewrite <- app_assoc.
Qed.

Lemma plain_no_sep (dirs : list string) :
  Forall (fun e => plain e = true) dirs ->
  Forall (fun e => no_sep "/" e = true) dirs.
Proof.
  intros H. eapply Forall_impl; [| exact H].
  intros e He. now apply plain_facts in He.
Qed.

Lemma prefix_self_append (a b : string) : String.prefix a (a ++ b) = true.
Proof.
  induction a as [| x a IH]; simpl; [now destruct b |].
  destruct (ascii_dec x x); [exact IH | congruence].
Qed.

Section PathResolverMore.

Variable gitRepoSuffix : string.

Local Abbreviation path_of := (getFullPathForRepo gitRepoSuffix).

(** The path of a repository whose UID has no [..], element by element. *)
Lemma getFullPathForRepo_elements (dirs : list string) (uid : string) :
  dirs <> [] ->
  Forall (fun e => plain e = true) dirs ->
  no_sep "/" gitRepoSuffix = true ->
  gitRepoSuffix <> "" -> gitRepoSuffix <> "." ->
  dotdot_free uid = true ->
  path_of {| reposRoot := "/" ++ StringsJoin dirs "/" |} uid
  = "/" ++ StringsJoin
             (dirs ++ filter kept
                        (removelast (Split "/" uid)
                         ++ [(last (Split "/" uid) "" ++ "." ++ gitRepoSuffix)
                             %string]))%list
             "/".
Proof.
  intros Hne Hdirs Hsep Hs1 Hs2 Hfree.
  unfold getFullPathForRepo, Join; cbn [reposRoot].
  change ("/" ++ StringsJoin dirs "/" =? "") with false. cbv iota.
  replace (StringsJoin ["/" ++ StringsJoin dirs "/";
                        uid ++ "." ++ gitRepoSuffix] "/")
    with ("/" ++ (StringsJoin dirs "/"
                  ++ String "/" (uid ++ String "." gitRepoSuffix)))
    by (cbn [StringsJoin]; now rewrite append_assoc).
  unfold Clean. rewrite prefix_root. f_equal.
  change (Split "/" ("/" ++ (StringsJoin dirs "/"
                             ++ String "/" (uid ++ String "." gitRepoSuffix))))
    with ("" :: Split "/" (StringsJoin dirs "/"
                           ++ String "/" (uid ++ String "." gitRepoSuffix))).
  rewrite (Split_Join_prefix "/" dirs) by (assumption || now apply plain_no_sep).
  rewrite (Split_append "/" uid (String "." gitRepoSuffix)) by exact Hsep.
  cbn [fold_left]. change (clean_step true [] "") with (@nil string).
  rewrite fold_left_app, (clean_plain true dirs []) by assumption.
  rewrite app_nil_r, clean_kept.
  - rewrite rev_app_distr, !rev_involutive. reflexivity.
  - rewrite forallb_app. apply andb_true_intro. split.
    + unfold dotdot_free in Hfree.
      pose proof (Split_not_nil "/" uid) as Hnil.
      rewrite (app_removelast_last "" Hnil), forallb_app in Hfree.
      now apply andb_prop in Hfree as [Hfree _].
    + cbn [forallb]. rewrite andb_true_r. apply negb_true_iff.
      apply String.eqb_neq. intros E.
      destruct (last (Split "/" uid) "") as [| a [| b t]].
      * injection E as E. congruence.
      * injection E as _ E. congruence.
      * injection E as _ _ E. destruct t; discriminate.
Qed.

(** A cleaned absolute path of plain elements is itself. *)
Lemma Clean_plain_path (elems : list string) :
  elems <> [] ->
  Forall (fun e => plain e = true) elems ->
  Clean ("/" ++ StringsJoin elems "/") = "/" ++ StringsJoin elems "/".
Proof.
  intros Hne Hall. unfold Clean. rewrite prefix_root. f_equal.
  change (Split "/" ("/" ++ StringsJoin elems "/"))
    with ("" :: Split "/" (StringsJoin elems "/")).
  rewrite Split_Join by (assumption || now apply plain_no_sep).
  cbn [fold_left]. change (clean_step true [] "") with (@nil string).
  rewrite clean_plain by assumption.
  now rewrite app_nil_r, rev_involutive.
Qed.

(** A UID that is a plain name resolves to [root/uid.suffix]. *)
Lemma getFullPathForRepo_plain (dirs : list string) (uid : string) :
  dirs <> [] ->
  Forall (fun e => plain e = true) dirs ->
  no_sep "/" gitRepoSuffix = true ->
  plain uid = true ->
  path_of {| reposRoot := "/" ++ StringsJoin dirs "/" |} uid
  = ("/" ++ StringsJoin dirs "/") ++ "/" ++ uid ++ "." ++ gitRepoSuffix.
Proof.
  intros Hne Hdirs Hsep Hplain.
  unfold getFullPathForRepo, Join; cbn [reposRoot].
  change ("/" ++ StringsJoin dirs "/" =? "") with false. cbv iota.
  replace (StringsJoin ["/" ++ StringsJoin dirs "/";
                        uid ++ "." ++ gitRepoSuffix] "/")
    with ("/" ++ StringsJoin (dirs ++ [uid ++ "." ++ gitRepoSuffix]) "/").
  - rewrite Clean_plain_path.
    + rewrite StringsJoin_app by (assumption || discriminate). reflexivity.
    + now destruct dirs.
    + apply Forall_app. split; [assumption |].
      constructor; [now apply plain_repo_dir | constructor].
  - rewrite StringsJoin_app by (assumption || discriminate). reflexivity.
Qed.

(** X13: for a root [/d1/.../dn] and a suffix that is a plain name, a UID
    without [..] among its elements resolves to the root or to a path below
    it; a UID that is itself a plain name resolves to [root/uid.suffix]. *)
Theorem getFullPathForRepo_contained (dirs : list string) (uid : string) :
  dirs <> [] ->
  Forall (fun e => plain e = true) dirs ->
  no_sep "/" gitRepoSuffix = true ->
  gitRepoSuffix <> "" -> gitRepoSuffix <> "." ->
  let s := {| reposRoot := "/" ++ StringsJoin dirs "/" |} in
  (dotdot_free uid = true -> within (reposRoot s) (path_of s uid) = true) /\
  (plain uid = true ->
   path_of s uid = reposRoot s ++ "/" ++ uid ++ "." ++ gitRepoSuffix).
Proof.
  intros Hne Hdirs Hsep Hs1 Hs2 s. subst s. cbn [reposRoot]. split.
  - intros Hfree.
    rewrite (getFullPathForRepo_elements dirs uid) by assumption.
    destruct (filter kept _) as [| e l].
    + rewrite app_nil_r. unfold within. now rewrite String.eqb_refl.
    + rewrite StringsJoin_app by (assumption || discriminate).
      unfold within. apply orb_true_iff. right.
      set (R := StringsJoin dirs "/"). set (K := StringsJoin (e :: l) "/").
      rewrite <- (append_assoc "/" R ("/" ++ K)).
      rewrite <- (append_assoc ("/" ++ R) "/" K).
      apply prefix_self_append.
  - intros Hplain. now apply getFullPathForRepo_plain.
Qed.

End PathResolverMore.

Lemma getFullPathForRepo_contained_witness :
  within "/data/repos"
         (getFullPathForRepo "git" {| reposRoot := "/data/repos" |} "org/./r1")
  = true /\
  getFullPathForRepo "git" {| reposRoot := "/data/repos" |} "r1"
  = "/data/repos/r1.git".
Proof.
  split.
  - apply (getFullPathForRepo_contained "git" ["data"; "repos"] "org/./r1");
      try discriminate; try reflexivity.
    repeat constructor.
  - apply (getFullPathForRepo_contained "git" ["data"; "repos"] "r1");
      try discriminate; try reflexivity.
    repeat constructor.
Defined.

(* ----------------------------------------------------------------- *)
(** *** Construction of the service *)

Section ConstructionProperties.

Variable repoSubdirName : string.
Variable os_Stat : string -> option error.
Variable os_MkdirAll : string -> N -> option error.
Variable IsNotExist : error -> bool.

Local Abbreviation new_service :=
  (newHTTPService repoSubdirName os_Stat os_MkdirAll IsNotExist).

(** X14: the construction fails only when the directory of the
    repositories is reported missing and cannot be made, and then with the
    error of [MkdirAll] and without service.  In every other case (the
    directory is there, it has just been made, or [Stat] failed for another
    reason) a service rooted at the join of the git root and the name of the
    directory is returned.  [MkdirAll] is tried only for a missing
    directory, once, with permission 0700. *)
Theorem newHTTPService_outcome (gitRoot : string) :
  let root := Join [gitRoot; repoSubdirName] in
  let missing := match os_Stat root with
                 | Some e => IsNotExist e
                 | None => false
                 end in
  let result := fst (new_service gitRoot) in
  let calls := snd (new_service gitRoot) in
  (forall e, snd result = Some e <->
             missing = true /\ os_MkdirAll root 448 = Some e) /\
  (snd result = None -> fst result = Some {| reposRoot := root |}) /\
  (snd result <> None -> fst result = None) /\
  calls = (FsStat root :: if missing then [FsMkdirAll root 448] else [])%list.
Proof.
  cbv zeta. unfold newHTTPService.
  destruct (match os_Stat _ with Some e => IsNotExist e | None => false end).
  - destruct (os_MkdirAll _ 448) as [err |]; cbn [fst snd].
    + repeat split; try congruence.
      * intros [_ H]. exact H.
    + repeat split; try congruence.
      intros [_ H]. discriminate.
  - cbn [fst snd]. repeat split; try congruence.
    + intros [H _]. discriminate.
Qed.

(** X15: for a git root [/d1/.../dn] and a plain name for the directory of
    the repositories, the service that the construction returns resolves a
    UID that is a plain name to [gitRoot/subdir/uid.suffix]. *)
Theorem newHTTPService_layout (gitRepoSuffix : string)
        (dirs : list string) (uid : string) (s : smartHTTPService) :
  dirs <> [] ->
  Forall (fun e => plain e = true) dirs ->
  plain repoSubdirName = true ->
  no_sep "/" gitRepoSuffix = true ->
  plain uid = true ->
  let gitRoot := "/" ++ StringsJoin dirs "/" in
  fst (fst (new_service gitRoot)) = Some s ->
  reposRoot s = gitRoot ++ "/" ++ repoSubdirName /\
  getFullPathForRepo gitRepoSuffix s uid
  = gitRoot ++ "/" ++ repoSubdirName ++ "/" ++ uid ++ "." ++ gitRepoSuffix.
Proof.
  intros Hne Hdirs Hsub Hsep Huid gitRoot Hs.
  assert (Hroot : Join [gitRoot; repoSubdirName]
                  = "/" ++ StringsJoin (dirs ++ [repoSubdirName]) "/").
  { unfold Join. change (gitRoot =? "") with false. cbv iota.
    replace (StringsJoin [gitRoot; repoSubdirName] "/")
      with ("/" ++ StringsJoin (dirs ++ [repoSubdirName]) "/")
      by (rewrite StringsJoin_app by (assumption || discriminate);
          reflexivity).
    apply Clean_plain_path; [now destruct dirs |].
    apply Forall_app. split; [assumption | now repeat constructor]. }
  assert (Hsvc : s = {| reposRoot := Join [gitRoot; repoSubdirName] |}).
  { unfold newHTTPService in Hs.
    destruct (match os_Stat _ with Some e => IsNotExist e | None => false end).
    - destruct (os_MkdirAll _ 448); cbn [fst] in Hs; congruence.
    - cbn [fst] in Hs. congruence. }
  subst s. cbn [reposRoot]. rewrite Hroot.
  assert (Hplain : Forall (fun e => plain e = true) (dirs ++ [repoSubdirName]))
    by (apply Forall_app; split; [assumption | now repeat constructor]).
  split.
  - rewrite StringsJoin_app by (assumption || discriminate). reflexivity.
  - rewrite (getFullPathForRepo_plain gitRepoSuffix (dirs ++ [repoSubdirName]) uid)
      by (assumption || now destruct dirs).
    rewrite StringsJoin_app by (assumption || discriminate).
    unfold gitRoot. cbn [StringsJoin append]. now rewrite !append_assoc.
Qed.

End ConstructionProperties.

(* ----------------------------------------------------------------- *)
(** *** The pre-receive hook *)

Section HookProperties.

Import GithookController.

Variable gitReferenceNamePrefixBranch : string.
Variable NilSHA : string.
Variable ErrDefaultBranchCantBeDeleted : string.
Variable Session : Type.
Variable getRepoCheckAccess : Session -> Z -> Repository + error.

Local Abbreviation block :=
  (blockDefaultBranchDeletion gitReferenceNamePrefixBranch NilSHA
                              ErrDefaultBranchCantBeDeleted).
Local Abbreviation pre_receive :=
  (PreReceive gitReferenceNamePrefixBranch NilSHA
              ErrDefaultBranchCantBeDeleted getRepoCheckAccess).

Lemma first_deletion_spec (ref : string) (updates : list ReferenceUpdate) :
  (first_deletion NilSHA ErrDefaultBranchCantBeDeleted ref updates
   = Some {| Error := Some ErrDefaultBranchCantBeDeleted |} /\
   exists u, In u updates /\ deletes NilSHA ref u) \/
  (first_deletion NilSHA ErrDefaultBranchCantBeDeleted ref updates = None /\
   forall u, In u updates -> ~ deletes NilSHA ref u).
Proof.
  unfold deletes. induction updates as [| u rest IH]; simpl.
  - right. split; [reflexivity | intros u []].
  - destruct (New u =? NilSHA) eqn:En; destruct (Ref u =? ref) eqn:Er;
      cbn [andb].
    + left. split; [reflexivity |]. exists u.
      apply String.eqb_eq in En, Er. auto.
    + apply String.eqb_neq in Er.
      destruct IH as [[H (v & Hin & Hv)] | [H Hnone]].
      * left. split; [exact H |]. exists v. auto.
      * right. split; [exact H |].
        intros v [<- | Hin]; [tauto | now apply Hnone].
    + apply String.eqb_neq in En.
      destruct IH as [[H (v & Hin & Hv)] | [H Hnone]].
      * left. split; [exact H |]. exists v. auto.
      * right. split; [exact H |].
        intros v [<- | Hin]; [tauto | now apply Hnone].
    + apply String.eqb_neq in En.
      destruct IH as [[H (v & Hin & Hv)] | [H Hnone]].
      * left. split; [exact H |]. exists v. auto.
      * right. split; [exact H |].
        intros v [<- | Hin]; [tauto | now apply Hnone].
Qed.

(** X16: the hook blocks a push exactly when one of its updates, wherever
    it stands among the others, sets the reference of the default branch
    to the nil SHA; the output then carries the message that the default
    branch cannot be deleted.  Updates that give the default branch a new
    value, and deletions of other references, are not blocked. *)
Theorem blockDefaultBranchDeletion_iff (repo : Repository)
        (input : PreReceiveInput) :
  let ref := gitReferenceNamePrefixBranch ++ DefaultBranch repo in
  (block repo input <> None <->
   exists u, In u (RefUpdates input) /\ deletes NilSHA ref u) /\
  (forall out, block repo input = Some out ->
               Error out = Some ErrDefaultBranchCantBeDeleted).
Proof.
  cbv zeta. unfold blockDefaultBranchDeletion.
  destruct (first_deletion_spec
              (gitReferenceNamePrefixBranch ++ DefaultBranch repo)
              (RefUpdates input)) as [[H Hex] | [H Hnone]];
    rewrite H; split.
  - split; [intros _; exact Hex | discriminate].
  - intros out E. now injection E as <-.
  - split; [congruence |]. intros (u & Hin & Hu). now apply Hnone in Hin.
  - discriminate.
Qed.

(** X17: [PreReceive] returns an output or an error, never both.  A nil
    input and a refused access are errors, whatever the push holds; with
    access granted there is no error, and the output has the deletion
    message exactly when the push deletes the default branch of the
    repository, and is empty otherwise. *)
Theorem PreReceive_outcome (session : Session) (repoID principalID : Z)
        (input : option PreReceiveInput) :
  let result := pre_receive session repoID principalID input in
  (fst result = None \/ snd result = None) /\
  (input = None -> result = (None, Some (PlainError "input is nil"))) /\
  (forall i err, input = Some i ->
     getRepoCheckAccess session repoID = inr err ->
     result = (None, Some err)) /\
  (forall i repo, input = Some i ->
     getRepoCheckAccess session repoID = inl repo ->
     let ref := gitReferenceNamePrefixBranch ++ DefaultBranch repo in
     ((exists u, In u (RefUpdates i) /\ deletes NilSHA ref u) ->
      result = (Some {| Error := Some ErrDefaultBranchCantBeDeleted |}, None)) /\
     ((forall u, In u (RefUpdates i) -> ~ deletes NilSHA ref u) ->
      result = (Some {| Error := None |}, None))).
Proof.
  cbv zeta. unfold PreReceive. split; [| split; [| split]].
  - destruct input as [i |]; [| now left].
    destruct (getRepoCheckAccess session repoID) as [repo | err]; [| now left].
    destruct (block repo i); now right.
  - now intros ->.
  - intros i err -> Hacc. now rewrite Hacc.
  - intros i repo -> Hacc. rewrite Hacc.
    unfold blockDefaultBranchDeletion.
    destruct (first_deletion_spec
                (gitReferenceNamePrefixBranch ++ DefaultBranch repo)
                (RefUpdates i)) as [[H Hex] | [H Hnone]]; rewrite H; split.
    + reflexivity.
    + intros Hno. destruct Hex as (u & Hin & Hu). now apply Hno in Hin.
    + intros (u & Hin & Hu). now apply Hnone in Hin.
    + reflexivity.
Qed.

End HookProperties.

(* ----------------------------------------------------------------- *)
(** *** Parsing of integers *)

Lemma parseUint_digits_bound (s : string) : forall n,
  (n <= maxUint64)%N -> (fst (parseUint_digits s n) <= maxUint64)%N.
Proof.
  induction s as [| c s IH]; intros n Hn; cbn [parseUint_digits];
    [exact Hn |].
  destruct (is_digit c); [| cbn [fst]; lia].
  destruct (maxUint64 / 10 + 1 <=? n)%N; [cbn [fst]; lia |].
  destruct (maxUint64 <? n * 10 + (N_of_ascii c - 48))%N eqn:E;
    [cbn [fst]; lia |].
  apply IH. now apply N.ltb_ge in E.
Qed.

(** The result of [ParseInt] is a 64-bit integer, error or not. *)
Lemma ParseInt_range (s : string) :
  (- 2 ^ 63 <= fst (ParseInt s) < 2 ^ 63)%Z.
Proof.
  change (2 ^ 63)%Z with 9223372036854775808%Z.
  unfold ParseInt. destruct s as [| c rest]; [cbn [fst]; lia |].
  change (2 ^ 63)%N with 9223372036854775808%N.
  change (Z.of_N 9223372036854775808) with 9223372036854775808%Z.
  assert (Hgen : forall (un : N) (e : option NumError),
    (- (9223372036854775808)
     <= fst (if negb (Ascii.eqb c "-") && (9223372036854775808 <=? un)%N
             then (9223372036854775808 - 1, Some ErrRange)
             else if Ascii.eqb c "-" && (9223372036854775808 <? un)%N
                  then (- (9223372036854775808), Some ErrRange)
                  else (if Ascii.eqb c "-" then - Z.of_N un else Z.of_N un, e))
     < 9223372036854775808)%Z).
  { intros un e.
    destruct (negb (Ascii.eqb c "-") && (9223372036854775808 <=? un)%N) eqn:E1;
      [cbn [fst]; lia |].
    destruct (Ascii.eqb c "-" && (9223372036854775808 <? un)%N) eqn:E2;
      [cbn [fst]; lia |].
    cbn [fst]. destruct (Ascii.eqb c "-"); cbn [negb andb] in E1, E2.
    - apply N.ltb_ge in E2. lia.
    - apply N.leb_gt in E1. lia. }
  destruct (ParseUint _) as [un [[|] |]];
    [cbn [fst]; lia | exact (Hgen un None) | exact (Hgen un None)].
Qed.

Lemma decimal_from_ge (s : string) : forall n, (n <= decimal_from n s)%N.
Proof.
  induction s as [| c s IH]; intros n; simpl; [lia |].
  specialize (IH (n * 10 + (N_of_ascii c - 48))%N). lia.
Qed.

Lemma parseUint_digits_value (s : string) : forall n,
  string_forallb is_digit s = true ->
  (decimal_from n s <= maxUint64)%N ->
  parseUint_digits s n = (decimal_from n s, None).
Proof.
  induction s as [| c s IH]; intros n Hd Hmax; cbn [parseUint_digits];
    [reflexivity |].
  cbn [string_forallb decimal_from] in Hd, Hmax.
  apply andb_prop in Hd as [Hc Hs]. rewrite Hc.
  pose proof (decimal_from_ge s (n * 10 + (N_of_ascii c - 48))%N) as Hge.
  assert (Hn1 : (n * 10 + (N_of_ascii c - 48) <= maxUint64)%N) by lia.
  assert (E1 : (maxUint64 / 10 + 1 <=? n)%N = false).
  { apply N.leb_gt. unfold maxUint64 in *.
    change (2 ^ 64 - 1)%N with 18446744073709551615%N in *.
    change (18446744073709551615 / 10 + 1)%N with 1844674407370955162%N. lia. }
  assert (E2 : (maxUint64 <? n * 10 + (N_of_ascii c - 48))%N = false)
    by (apply N.ltb_ge; lia).
  rewrite E1, E2. now apply IH.
Qed.

(** A string of digits whose value fits 63 bits parses to that value. *)
Lemma ParseInt_digits (s : string) :
  s <> "" ->
  string_forallb is_digit s = true ->
  (decimal_value s < 2 ^ 63)%N ->
  ParseInt s = (Z.of_N (decimal_value s), None).
Proof.
  intros Hne Hd Hv. destruct s as [| c rest]; [congruence |].
  unfold ParseInt.
  assert (Hc : is_digit c = true) by (simpl in Hd; now apply andb_prop in Hd).
  assert (Hplus : Ascii.eqb c "+" = false).
  { destruct (Ascii.eqb_spec c "+"); [subst; discriminate | reflexivity]. }
  assert (Hminus : Ascii.eqb c "-" = false).
  { destruct (Ascii.eqb_spec c "-"); [subst; discriminate | reflexivity]. }
  rewrite Hplus, Hminus. cbn [orb negb andb].
  unfold ParseUint.
  rewrite (parseUint_digits_value (String c rest) 0 Hd)
    by (fold (decimal_value (String c rest)); unfold maxUint64; lia).
  fold (decimal_value (String c rest)).
  assert (E : (2 ^ 63 <=? decimal_value (String c rest))%N = false)
    by (apply N.leb_gt; exact Hv).
  now rewrite E.
Qed.

(** The loop of [ParseUint] on digits: the value when it fits 64 bits, the
    largest value with the range error when it does not. *)
Lemma parseUint_digits_cases (s : string) : forall n,
  string_forallb is_digit s = true ->
  (n <= maxUint64)%N ->
  parseUint_digits s n =
  if (decimal_from n s <=? maxUint64)%N then (decimal_from n s, None)
  else (maxUint64, Some ErrRange).
Proof.
  induction s as [| c s IH]; intros n Hd Hn;
    cbn [parseUint_digits decimal_from].
  - apply N.leb_le in Hn. now rewrite Hn.
  - cbn [string_forallb] in Hd. apply andb_prop in Hd as [Hc Hs]. rewrite Hc.
    pose proof (decimal_from_ge s (n * 10 + (N_of_ascii c - 48))%N) as Hge.
    unfold maxUint64 in *.
    change (2 ^ 64 - 1)%N with 18446744073709551615%N in *.
    change (18446744073709551615 / 10 + 1)%N with 1844674407370955162%N.
    destruct (1844674407370955162 <=? n)%N eqn:E1.
    + apply N.leb_le in E1.
      assert (E : (decimal_from (n * 10 + (N_of_ascii c - 48)) s
                   <=? 18446744073709551615)%N = false)
        by (apply N.leb_gt; lia).
      now rewrite E.
    + destruct (18446744073709551615 <? n * 10 + (N_of_ascii c - 48))%N
        eqn:E2.
      * apply N.ltb_lt in E2.
        assert (E : (decimal_from (n * 10 + (N_of_ascii c - 48)) s
                     <=? 18446744073709551615)%N = false)
          by (apply N.leb_gt; lia).
        now rewrite E.
      * apply N.ltb_ge in E2. now apply IH.
Qed.

(** [ParseInt] on digits, with or without a plus sign before them: the
    value when it fits 63 bits, the largest [int64] with the range error
    when it does not. *)
Lemma ParseInt_digits_cases (s d : string) :
  s = d \/ s = String "+" d ->
  d <> "" ->
  string_forallb is_digit d = true ->
  ParseInt s =
  if (decimal_value d <? 2 ^ 63)%N then (Z.of_N (decimal_value d), None)
  else ((2 ^ 63 - 1)%Z, Some ErrRange).
Proof.
  intros Hs Hne Hd.
  assert (Hu : ParseUint d =
               if (decimal_value d <=? maxUint64)%N
               then (decimal_value d, None)
               else (maxUint64, Some ErrRange)).
  { unfold ParseUint, decimal_value. destruct d as [| c rest]; [congruence |].
    apply parseUint_digits_cases; [exact Hd | unfold maxUint64; lia]. }
  assert (Hgen : match ParseUint d with
                 | (_, Some ErrSyntax) => (0%Z, Some ErrSyntax)
                 | (un, _) =>
                     if negb false && (2 ^ 63 <=? un)%N
                     then (Z.of_N (2 ^ 63) - 1, Some ErrRange)%Z
                     else if false && (2 ^ 63 <? un)%N
                     then (- Z.of_N (2 ^ 63), Some ErrRange)%Z
                     else (Z.of_N un, None)
                 end =
                 if (decimal_value d <? 2 ^ 63)%N
                 then (Z.of_N (decimal_value d), None)
                 else ((2 ^ 63 - 1)%Z, Some ErrRange)).
  { rewrite Hu. unfold maxUint64.
    change (2 ^ 64 - 1)%N with 18446744073709551615%N.
    change (2 ^ 63)%N with 9223372036854775808%N.
    change (Z.of_N 9223372036854775808) with 9223372036854775808%Z.
    change (2 ^ 63 - 1)%Z with 9223372036854775807%Z.
    change (9223372036854775808 - 1)%Z with 9223372036854775807%Z.
    cbn [negb andb].
    destruct (decimal_value d <=? 18446744073709551615)%N eqn:E1.
    - destruct (decimal_value d <? 9223372036854775808)%N eqn:E2.
      + apply N.ltb_lt in E2.
        assert (E : (9223372036854775808 <=? decimal_value d)%N = false)
          by (apply N.leb_gt; lia).
        now rewrite E.
      + apply N.ltb_ge in E2.
        assert (E : (9223372036854775808 <=? decimal_value d)%N = true)
          by (apply N.leb_le; lia).
        now rewrite E.
    - apply N.leb_gt in E1.
      assert (E : (decimal_value d <? 9223372036854775808)%N = false)
        by (apply N.ltb_ge; lia).
      rewrite E. reflexivity. }
  destruct Hs as [-> | ->].
  - destruct d as [| c rest]; [congruence |].
    assert (Hc : is_digit c = true)
      by (simpl in Hd; now apply andb_prop in Hd).
    assert (Hplus : Ascii.eqb c "+" = false).
    { destruct (Ascii.eqb_spec c "+"); [subst; discriminate | reflexivity]. }
    assert (Hminus : Ascii.eqb c "-" = false).
    { destruct (Ascii.eqb_spec c "-"); [subst; discriminate | reflexivity]. }
    unfold ParseInt. rewrite Hplus, Hminus. cbn [orb]. cbv zeta.
    exact Hgen.
  - unfold ParseInt.
    change (Ascii.eqb "+" "-") with false.
    change (Ascii.eqb "+" "+") with true.
    cbn [orb]. cbv zeta. exact Hgen.
Qed.

(** [ParseInt] never gives a positive number after a minus sign. *)
Lemma ParseInt_minus (rest : string) :
  (fst (ParseInt (String "-" rest)) <= 0)%Z.
Proof.
  unfold ParseInt.
  change (Ascii.eqb "-" "-") with true.
  change (Ascii.eqb "-" "+") with false.
  cbn [orb negb andb]. cbv zeta.
  change (2 ^ 63)%N with 9223372036854775808%N.
  change (Z.of_N 9223372036854775808) with 9223372036854775808%Z.
  destruct (ParseUint rest) as [un [[|] |]]; cbn [fst]; try lia;
    destruct (9223372036854775808 <? un)%N; cbn [fst]; lia.
Qed.

(* ----------------------------------------------------------------- *)
(** *** The request helpers *)

Section RequestProperties.

Import Request.

Variable BadRequestf : string -> error.

Local Abbreviation positive := (positive_or_error BadRequestf).

Lemma positive_or_error_cases (paramName : string) (s : string) :
  (positive paramName (ParseInt s)
   = (0%Z, Some (BadRequestf ("Parameter '" ++ paramName
                              ++ "' must be a positive integer."))) /\
   (snd (ParseInt s) <> None \/ (fst (ParseInt s) <= 0)%Z)) \/
  (positive paramName (ParseInt s) = (fst (ParseInt s), None) /\
   snd (ParseInt s) = None /\ (0 < fst (ParseInt s) < 2 ^ 63)%Z).
Proof.
  pose proof (ParseInt_range s) as Hr.
  change (2 ^ 63)%Z with 9223372036854775808%Z in *.
  unfold positive_or_error. destruct (ParseInt s) as [v [e |]]; cbn [fst snd] in *.
  - left. split; [reflexivity | left; discriminate].
  - cbn [orb]. destruct (v <=? 0)%Z eqn:E.
    + left. split; [reflexivity | right; now apply Z.leb_le].
    + right. apply Z.leb_gt in E. repeat split; lia.
Qed.


(** X19: the page number read from a request is at least 1 and at most the
    largest [int].  When the value of the form is a number in decimal
    digits, with or without a plus sign before it, the page is that number
    if it lies between 1 and the largest [int], the largest [int] if the
    number is larger, and 1 if it is zero.  A value that is empty, that
    starts with a minus sign, or that [Atoi] refuses with a syntax error
    gives page 1. *)
Theorem ParsePage_bounds (r : Request) :
  let s := FormValue r QueryParamPage in
  (1 <= ParsePage r <= 2 ^ 63 - 1)%Z /\
  (forall d, s = d \/ s = String "+" d ->
             d <> "" -> string_forallb is_digit d = true ->
             ParsePage r =
             if (decimal_value d =? 0)%N then 1%Z
             else if (decimal_value d <? 2 ^ 63)%N
                  then Z.of_N (decimal_value d)
                  else (2 ^ 63 - 1)%Z) /\
  (s = "" -> ParsePage r = 1%Z) /\
  (forall rest, s = String "-" rest -> ParsePage r = 1%Z) /\
  (snd (Atoi s) = Some ErrSyntax -> ParsePage r = 1%Z).
Proof.
  cbv zeta. unfold ParsePage, Atoi.
  pose proof (ParseInt_range (FormValue r QueryParamPage)) as Hr.
  split; [| split; [| split; [| split]]].
  - change (2 ^ 63)%Z with 9223372036854775808%Z in *.
    destruct (fst (ParseInt (FormValue r QueryParamPage)) <=? 0)%Z eqn:E.
    + lia.
    + apply Z.leb_gt in E. lia.
  - intros d Hs Hne Hd.
    rewrite (ParseInt_digits_cases _ d Hs Hne Hd).
    change (2 ^ 63)%N with 9223372036854775808%N.
    change (2 ^ 63 - 1)%Z with 9223372036854775807%Z.
    destruct (decimal_value d =? 0)%N eqn:E0.
    + apply N.eqb_eq in E0. rewrite E0. reflexivity.
    + apply N.eqb_neq in E0.
      destruct (decimal_value d <? 9223372036854775808)%N; cbn [fst].
      * assert (E : (Z.of_N (decimal_value d) <=? 0)%Z = false)
          by (apply Z.leb_gt; lia).
        now rewrite E.
      * reflexivity.
  - intros ->. reflexivity.
  - intros rest ->. pose proof (ParseInt_minus rest) as Hm.
    apply Z.leb_le in Hm. now rewrite Hm.
  - intros Hsyn.
    assert (H0 : fst (ParseInt (FormValue r QueryParamPage)) = 0%Z).
    { revert Hsyn. unfold ParseInt.
      destruct (FormValue r QueryParamPage) as [| c rest]; [reflexivity |].
      destruct (ParseUint _) as [un [[|] |]]; cbn [fst snd];
        try reflexivity.
      - destruct (negb _ && _); [discriminate |].
        destruct (Ascii.eqb c "-" && _); discriminate.
      - destruct (negb _ && _); [discriminate |].
        destruct (Ascii.eqb c "-" && _); discriminate. }
    rewrite H0. reflexivity.
Qed.


Lemma positive_or_error_facts (paramName : string) (s : string) :
  (snd (positive paramName (ParseInt s)) = None ->
   (0 < fst (positive paramName (ParseInt s)) < 2 ^ 63)%Z) /\
  (snd (positive paramName (ParseInt s)) <> None ->
   fst (positive paramName (ParseInt s)) = 0%Z).
Proof.
  destruct (positive_or_error_cases paramName s) as [[E _] | [E [_ Hv]]];
    rewrite E; cbn [fst snd]; split; intros H;
    solve [discriminate | reflexivity | congruence | exact Hv].
Qed.

(** X21: the required positive parameters, of the query and of the path.
    Without error the value is a positive 64-bit integer; with an error it
    is 0.  A key that is not in the query, or a path parameter that is
    empty, is an error of its own. *)
Theorem PositiveInt64_outcome (r : Request) (paramName : string) :
  let q := QueryParamAsPositiveInt64 BadRequestf r paramName in
  let p := PathParamAsPositiveInt64 BadRequestf r paramName in
  ((snd q = None -> (0 < fst q < 2 ^ 63)%Z) /\
   (snd q <> None -> fst q = 0%Z) /\
   (Query r paramName = None ->
    q = (0%Z, Some (BadRequestf ("Parameter '" ++ paramName
                                 ++ "' not found in query."))))) /\
  ((snd p = None -> (0 < fst p < 2 ^ 63)%Z) /\
   (snd p <> None -> fst p = 0%Z) /\
   (URLParam r paramName = "" ->
    p = (0%Z, Some (BadRequestf ("Parameter '" ++ paramName
                                 ++ "' not found in request path."))))).
Proof.
  cbv zeta.
  unfold QueryParamAsPositiveInt64, PathParamAsPositiveInt64,
    QueryParamOrError, PathParamOrError, QueryParam, Has.
  split.
  - destruct (Query r paramName) as [vs |]; cbn [negb]; cbv iota.
    + destruct (positive_or_error_facts paramName (Get r paramName))
        as [H1 H2].
      split; [exact H1 |]. split; [exact H2 | discriminate].
    + cbn [fst snd]. split; [discriminate |]. split; reflexivity.
  - destruct (URLParam r paramName =? "") eqn:E.
    + cbn [fst snd]. split; [discriminate |]. split; reflexivity.
    + destruct (positive_or_error_facts paramName (URLParam r paramName))
        as [H1 H2].
      split; [exact H1 |]. split; [exact H2 |].
      intros H. apply String.eqb_neq in E. congruence.
Qed.

(** X22: a query value made of decimal digits whose value is positive and
    fits 63 bits is read as that value, leading zeros or not. *)
Theorem QueryParamAsPositiveInt64_digits (r : Request) (paramName : string)
        (value : string) (others : list string) :
  Query r paramName = Some (value :: others) ->
  value <> "" ->
  string_forallb is_digit value = true ->
  (0 < decimal_value value < 2 ^ 63)%N ->
  QueryParamAsPositiveInt64 BadRequestf r paramName
  = (Z.of_N (decimal_value value), None).
Proof.
  intros Hq Hne Hd Hv.
  unfold QueryParamAsPositiveInt64, QueryParamOrError, QueryParam, Has, Get.
  rewrite Hq. cbn [negb]. cbv iota.
  rewrite (ParseInt_digits value Hne Hd) by lia.
  unfold positive_or_error. cbn [orb].
  destruct (Z.of_N (decimal_value value) <=? 0)%Z eqn:E; [| reflexivity].
  apply Z.leb_le in E. lia.
Qed.

(** X26: an optional boolean of the query.  A key that is missing, and a
    key whose first value is empty, give the default without error; any
    other value has to be one of the spellings that [ParseBool] knows, or
    the result is [false] with the bad-request error.  The plain
    [QueryParamOrDefault] returns the default only for a missing key: an
    empty value comes back as the empty string. *)
Theorem QueryParamAsBoolOrDefault_outcome (r : Request) (paramName : string)
        (deflt : bool) (fallback : string) :
  let result := QueryParamAsBoolOrDefault BadRequestf r paramName deflt in
  (Query r paramName = None \/ Get r paramName = "" ->
   result = (deflt, None)) /\
  (Query r paramName <> None -> Get r paramName <> "" ->
   (snd (ParseBool (Get r paramName)) = None /\
    result = (fst (ParseBool (Get r paramName)), None)) \/
   (snd (ParseBool (Get r paramName)) <> None /\
    result = (false, Some (BadRequestf ("Parameter '" ++ paramName
                                        ++ "' must be a boolean."))))) /\
  (Query r paramName = None ->
   QueryParamOrDefault r paramName fallback = fallback) /\
  (Query r paramName <> None ->
   QueryParamOrDefault r paramName fallback = Get r paramName).
Proof.
  cbv zeta.
  unfold QueryParamAsBoolOrDefault, QueryParamOrDefault, QueryParam, Has.
  destruct (Query r paramName) as [vs |] eqn:E; cbn [negb orb]; cbv iota.
  - split; [| split; [| split]].
    + intros [H | H]; [discriminate |]. now rewrite H.
    + intros _ Hne.
      assert (Hl : (String.length (Get r paramName) =? 0)%nat = false).
      { apply Nat.eqb_neq. destruct (Get r paramName); [congruence |].
        discriminate. }
      rewrite Hl.
      destruct (ParseBool (Get r paramName)) as [b [e |]]; cbn [fst snd].
      * right. split; [discriminate | reflexivity].
      * left. split; reflexivity.
    + discriminate.
    + reflexivity.
  - split; [| split; [| split]].
    + reflexivity.
    + congruence.
    + reflexivity.
    + congruence.
Qed.

End RequestProperties.

(* ----------------------------------------------------------------- *)
(** *** The blame handler *)

Section BlameProperties.

Import Request RepoHandler.

Variable BadRequestf : string -> error.
Variable QueryParamLineFrom : string.
Variable QueryParamLineTo : string.
Variable Session : Type.
Variable Stream : Type.
Variable AuthSessionFrom : Request -> Session.
Variable GetRepoRefFromPath : Request -> string * option error.
Variable GetGitRefFromQueryOrDefault : Request -> string -> string.
Variable Blame : BlameCall Session -> Stream + error.

Local Abbreviation handle :=
  (HandleBlame BadRequestf QueryParamLineFrom QueryParamLineTo
               AuthSessionFrom GetRepoRefFromPath
               GetGitRefFromQueryOrDefault Blame).

Lemma optional_line (r : Request) (paramName : string) :
  (exists err,
      QueryParamAsPositiveInt64OrDefault BadRequestf r paramName 0
      = (0%Z, Some err)) \/
  (exists line,
      QueryParamAsPositiveInt64OrDefault BadRequestf r paramName 0
      = (line, None) /\ line_of r paramName line).
Proof.
  unfold QueryParamAsPositiveInt64OrDefault, QueryParam, Has, line_of.
  destruct (Query r paramName) as [vs |] eqn:E; cbn [negb]; cbv iota.
  - destruct (positive_or_error_cases BadRequestf paramName (Get r paramName))
      as [[H _] | [H [He Hv]]]; rewrite H.
    + left. eexists. reflexivity.
    + right. eexists. split; [reflexivity |]. right.
      split; [discriminate |]. split; [exact Hv |].
      destruct (ParseInt (Get r paramName)) as [v e]. cbn in *. now subst.
  - right. exists 0%Z. split; [reflexivity |]. now left.
Qed.

(** X23: the blame handler calls the controller only for a request whose
    repository reference and two line parameters are all valid, and then
    with the remainder of the path and with line numbers that are 0 for a
    key that is missing and positive otherwise.  A stream is rendered only
    when the controller returned it; without a call an error is
    rendered. *)
Theorem HandleBlame_validates (r : Request) :
  (forall args, snd (handle r) = Some args ->
     GetRepoRefFromPath r = (blame_repoRef args, None) /\
     blame_path args = URLParam r PathParamRemainder /\
     blame_gitRef args = GetGitRefFromQueryOrDefault r "" /\
     line_of r QueryParamLineFrom (blame_lineFrom args) /\
     line_of r QueryParamLineTo (blame_lineTo args)) /\
  (forall stream, fst (handle r) = JSONArrayDynamic stream ->
     exists args, snd (handle r) = Some args /\ Blame args = inl stream) /\
  (snd (handle r) = None -> exists err, fst (handle r) = TranslatedUserError err).
Proof.
  unfold HandleBlame.
  destruct (GetRepoRefFromPath r) as [repoRef [err |]]; cbn [fst snd].
  { split; [discriminate |]. split; [discriminate | eauto]. }
  destruct (optional_line r QueryParamLineFrom)
    as [[err E1] | (lineFrom & E1 & H1)]; rewrite E1; cbn [fst snd].
  { split; [discriminate |]. split; [discriminate | eauto]. }
  destruct (optional_line r QueryParamLineTo)
    as [[err E2] | (lineTo & E2 & H2)]; rewrite E2; cbn [fst snd].
  { split; [discriminate |]. split; [discriminate | eauto]. }
  destruct (Blame _) as [stream | err] eqn:EB; cbn [fst snd].
  - split; [| split; [| discriminate]].
    + intros args E. injection E as <-. cbn. now repeat split.
    + intros stream' E. injection E as <-. eauto.
  - split; [| split; [| discriminate]].
    + intros args E. injection E as <-. cbn. now repeat split.
    + discriminate.
Qed.

End BlameProperties.

(* ----------------------------------------------------------------- *)
(** *** The metric collector *)

Section MetricProperties.

Import Metric.

Variable ListUsers : Z -> Z -> list User + error.
Variable CountUsers : Z + error.
Variable CountRepos : Z + error.
Variable CountPipelines : Z + error.
Variable CountExecutions : Z + error.
Variable version_String : string.
Variable format_DateTime : Z -> string.
Variable json_Encode : metricData -> bytes + error.
Variable http_NewRequest : string -> string -> option error.
Variable httpClient_Do : HttpRequest -> string + error.

Local Abbreviation handle :=
  (Handle ListUsers CountUsers CountRepos CountPipelines CountExecutions
          version_String format_DateTime json_Encode http_NewRequest
          httpClient_Do).

(** X24: the collector sends at most one request, and only complete data:
    it is enabled, a first user was found, the four counts and the
    encoding succeeded.  The request is a POST to the endpoint with the
    token as [api_key], with the two JSON headers; its body encodes the
    host name, the mail address and creation time of the first user, the
    version and the four counts, and an empty IP address. *)
Theorem Handle_sends_complete_data (c : Collector) :
  (sent (snd (handle c)) = [] \/ exists req, sent (snd (handle c)) = [req]) /\
  (forall req, In req (sent (snd (handle c))) ->
     enabled c = true /\
     exists first others users repos pipelines executions,
       ListUsers 1 1 = inl (first :: others) /\
       CountUsers = inl users /\ CountRepos = inl repos /\
       CountPipelines = inl pipelines /\ CountExecutions = inl executions /\
       json_Encode {| IP := ""; Hostname := hostname c;
                      Installer := Email first;
                      Installed := format_DateTime (Created first);
                      Version := version_String;
                      Users := users; Repos := repos;
                      Pipelines := pipelines; Executions := executions |}
       = inl (req_body req) /\
       req_method req = "POST" /\
       req_url req = endpoint c ++ "?api_key=" ++ token c /\
       req_header req = [("Accept", "application/json");
                         ("Content-Type", "application/json")]).
Proof.
  unfold Handle.
  destruct (enabled c); cbn [negb]; cbv iota;
    [| split; [now left | intros req []]].
  destruct (ListUsers 1 1) as [[| first others] | err];
    try (split; [now left | intros req []]).
  destruct CountUsers as [users | err];
    try (split; [now left | intros req []]).
  destruct CountRepos as [repos | err];
    try (split; [now left | intros req []]).
  destruct CountPipelines as [pipelines | err];
    try (split; [now left | intros req []]).
  destruct CountExecutions as [executions | err];
    try (split; [now left | intros req []]).
  cbv zeta.
  destruct (json_Encode _) as [buf | err] eqn:Ej;
    try (split; [now left | intros req []]).
  destruct (http_NewRequest _ _) as [err |];
    try (split; [now left | intros req []]).
  destruct (httpClient_Do _) as [status | err]; cbn [snd sent flat_map app];
    (split; [right; eexists; reflexivity |]);
    intros req [<- | []]; (split; [reflexivity |]);
    exists first, others, users, repos, pipelines, executions;
    cbn [req_body req_method req_url req_header]; now repeat split.
Qed.

(** X25: what [Handle] returns.  A collector that is switched off, or a
    system without users, gives the empty status without error and counts
    and sends nothing.  A status that is not empty comes from the answer
    to the request that was sent, and comes without error. *)
Theorem Handle_status (c : Collector) :
  (enabled c = false -> handle c = (("", None), [])) /\
  (enabled c = true -> ListUsers 1 1 = inl [] ->
   handle c = (("", None), [AskListUsers 1 1])) /\
  (fst (fst (handle c)) <> "" ->
   snd (fst (handle c)) = None /\
   exists req, sent (snd (handle c)) = [req] /\
               httpClient_Do req = inl (fst (fst (handle c)))).
Proof.
  unfold Handle. split; [| split].
  - now intros ->.
  - intros -> ->. reflexivity.
  - destruct (enabled c); cbn [negb]; cbv iota; [| now intros []].
    destruct (ListUsers 1 1) as [[| first others] | err];
      try (now intros []).
    destruct CountUsers as [users | err]; try (now intros []).
    destruct CountRepos as [repos | err]; try (now intros []).
    destruct CountPipelines as [pipelines | err]; try (now intros []).
    destruct CountExecutions as [executions | err]; try (now intros []).
    cbv zeta.
    destruct (json_Encode _) as [buf | err]; try (now intros []).
    destruct (http_NewRequest _ _) as [err |]; try (now intros []).
    destruct (httpClient_Do _) as [status | err] eqn:Ed; [| now intros []].
    intros _. cbn [fst snd sent flat_map app].
    split; [reflexivity |]. eexists. split; [reflexivity | exact Ed].
Qed.

End MetricProperties.

(* ----------------------------------------------------------------- *)
(** *** The further properties on the sample inputs *)

Lemma ServicePack_receive_error_witness :
  call (ServicePack sample_suffix sample_repo_var sample_pusher_var
          sample_git sample_host_env git_ok stream_closed sample_service)
  = (Some (PlainError "EOF"), [EvRecv (RecvErr (PlainError "EOF"))]).
Proof.
  apply (ServicePack_receive_error sample_suffix sample_repo_var
           sample_pusher_var sample_git sample_host_env git_ok stream_closed
           sample_service (PlainError "EOF")).
  reflexivity.
Defined.

Lemma ServicePack_runs_git_witness :
  existsb is_run
    (snd (call (ServicePack sample_suffix sample_repo_var sample_pusher_var
                  sample_git sample_host_env git_ok (stream_of sample_push)
                  sample_service))) = true <->
  Data sample_push = None /\ RepoUid sample_push <> "".
Proof.
  apply (ServicePack_runs_git sample_suffix sample_repo_var
           sample_pusher_var sample_git sample_host_env git_ok
           (stream_of sample_push) sample_service sample_push).
  reflexivity.
Defined.

Lemma ServicePack_host_environment_witness :
  getenv "PATH" (Env sample_push_opts) = getenv "PATH" sample_host_env.
Proof.
  apply (ServicePack_host_environment sample_suffix sample_repo_var
           sample_pusher_var sample_git sample_host_env git_ok
           (stream_of sample_push) sample_service sample_push
           sample_push_cmd sample_push_opts "PATH");
    try reflexivity; try discriminate.
  right. left. reflexivity.
Defined.

Lemma ServicePack_protocol_witness :
  getenv "GIT_PROTOCOL" (Env sample_push_opts) = Some "version=2".
Proof.
  apply (ServicePack_protocol sample_suffix sample_repo_var
           sample_pusher_var sample_git sample_host_env git_ok
           (stream_of sample_push) sample_service sample_push
           sample_push_cmd sample_push_opts).
  - reflexivity.
  - reflexivity.
  - right. left. reflexivity.
  - apply safeGitProtocolHeader_spec. reflexivity.
Defined.

Lemma InfoRefs_completes_witness :
  fst (call (InfoRefs sample_suffix sample_host_env git_ok send_ok
               sample_service sample_info_refs)) = None.
Proof.
  apply (InfoRefs_completes sample_suffix sample_host_env git_ok send_ok
           sample_service sample_info_refs).
  - reflexivity.
  - reflexivity.
Defined.

Lemma InfoRefs_host_environment_witness :
  getenv "PATH"
         (Env (InfoRefs_opts sample_suffix sample_host_env sample_service
                             sample_info_refs))
  = getenv "PATH" sample_host_env.
Proof.
  apply (InfoRefs_host_environment sample_suffix sample_host_env git_ok
           send_ok sample_service sample_info_refs
           (InfoRefs_cmd sample_info_refs)
           (InfoRefs_opts sample_suffix sample_host_env sample_service
                          sample_info_refs)).
  - left. reflexivity.
  - reflexivity.
  - discriminate.
Defined.

(** Page 3 is page 3, and a page of twenty nines is the largest [int]. *)
Lemma ParsePage_bounds_witness :
  Request.ParsePage (request_with_page "3") = 3%Z /\
  Request.ParsePage (request_with_page "99999999999999999999")
  = 9223372036854775807%Z.
Proof.
  split.
  - apply (proj1 (proj2 (ParsePage_bounds (request_with_page "3"))) "3").
    + left. reflexivity.
    + discriminate.
    + reflexivity.
  - apply (proj1 (proj2 (ParsePage_bounds
                           (request_with_page "99999999999999999999")))
                 "99999999999999999999").
    + left. reflexivity.
    + discriminate.
    + reflexivity.
Defined.

Lemma newHTTPService_layout_witness :
  getFullPathForRepo "git" {| reposRoot := "/data/repos" |} "r1"
  = "/data/repos/r1.git".
Proof.
  apply (newHTTPService_layout "repos" stat_missing mkdir_ok is_missing
           "git" ["data"] "r1" {| reposRoot := "/data/repos" |});
    try reflexivity; try discriminate.
  repeat constructor.
Defined.

Lemma QueryParamAsPositiveInt64_digits_witness :
  Request.QueryParamAsPositiveInt64 PlainError sample_request "commit"
  = (7%Z, None).
Proof.
  apply (QueryParamAsPositiveInt64_digits PlainError sample_request "commit"
           "007" ["8"]).
  - reflexivity.
  - discriminate.
  - reflexivity.
  - vm_compute. split; reflexivity.
Defined.
